(** * An in-memory cache: refresh coordination, policy selection and the
      LRU local cache

    Two source files are embedded here.

    - [policy.go]: the cache [entry] with its refresh flag ([lockEntry],
      [unlockEntry]) and the policy constructor [newPolicy].  Module [Policy].
    - the local cache ([localCache], [Put], [GetIfPresent], [Invalidate],
      [InvalidateAll], [removeOldest], [New] and its options).  Module
      [LocalCache].

    Both files declare a type called [entry]; each module keeps its own. *)

From stdpp Require Import gmap strings list fin_maps.

(* ===================================================================== *)
(** * policy.go *)
(* ===================================================================== *)

Module Policy.

(** [sync.Mutex].  [true] means held.  [Lock] on a held mutex cannot
    proceed and [Unlock] on a free mutex is a fatal error: both are [None]. *)
Definition Mutex := bool.

Definition Lock (m : Mutex) : option Mutex :=
  if m then None else Some true.

Definition Unlock (m : Mutex) : option Mutex :=
  if m then Some false else None.

Section Entry.
(** [Key], [Value], [time.Time] and [listID] are declared outside the two
    files; the code below only stores them. *)
Context {Key Value Time ListID : Type}.

Record entry := mkEntry {
  key : Key;
  value : Value;
  accessed : Time;
  updated : Time;
  listID : ListID;
  hash : Z;
  refreshMu : Mutex;
  isRefreshing : bool
}.

Definition set_refreshMu (m : Mutex) (en : entry) : entry :=
  mkEntry (key en) (value en) (accessed en) (updated en) (listID en)
          (hash en) m (isRefreshing en).

Definition set_isRefreshing (b : bool) (en : entry) : entry :=
  mkEntry (key en) (value en) (accessed en) (updated en) (listID en)
          (hash en) (refreshMu en) b.

(** [lockEntry]: the updated entry and the returned [canRefresh]. *)
Definition lockEntry (en : entry) : option (entry * bool) :=
  m ← Lock (refreshMu en);
  let en := set_refreshMu m en in
  let canRefresh := negb (isRefreshing en) in
  let en := set_isRefreshing true en in
  m ← Unlock (refreshMu en);
  Some (set_refreshMu m en, canRefresh).

Definition unlockEntry (en : entry) : option entry :=
  m ← Lock (refreshMu en);
  let en := set_refreshMu m en in
  let en := set_isRefreshing false en in
  m ← Unlock (refreshMu en);
  Some (set_refreshMu m en).

(** A caller's history on one entry: each call runs to completion before
    the next one starts, which is what [refreshMu] enforces. *)
Inductive call := CallLock | CallUnlock.

(** Runs the calls in order; the result lists what each [lockEntry]
    returned. *)
Fixpoint run (en : entry) (cs : list call) : option (entry * list bool) :=
  match cs with
  | [] => Some (en, [])
  | CallLock :: cs =>
      '(en, b) ← lockEntry en;
      '(en, bs) ← run en cs;
      Some (en, b :: bs)
  | CallUnlock :: cs =>
      en ← unlockEntry en;
      run en cs
  end.
End Entry.

Arguments entry : clear implicits.

(** Modelled from the spec: the struct types [slruCache], [lruCache] and
    [tinyLFU] are declared outside the two files; [newPolicy] only builds
    an empty value of one of them, so the model keeps which of the three
    policy implementations was chosen. *)
Inductive policy := slruCache | lruCache | tinyLFU.

(** The outcome of a call that may panic. *)
Inductive result (A : Type) :=
  | Ok (a : A)
  | Panic (msg : string).
Arguments Ok {A} a.
Arguments Panic {A} msg.

(** [newPolicy]: the [switch] compares [name] with each case in turn. *)
Definition newPolicy (name : string) : result policy :=
  if String.eqb name EmptyString || String.eqb name "slru" then Ok slruCache
  else if String.eqb name "lru" then Ok lruCache
  else if String.eqb name "tinylfu" then Ok tinyLFU
  else Panic ("cache: unsupported policy " +:+ name).

(** ** Callers running concurrently

    Several callers work on one entry at once, each one statement at a
    time.  What they share is the mutex and the flag. *)

(** Where a caller stands inside [lockEntry] or [unlockEntry]: before
    [refreshMu.Lock()], holding the mutex, after reading [canRefresh],
    after writing the flag, and returned. *)
Inductive pc :=
  | LockStart
  | LockHeld
  | LockRead (canRefresh : bool)
  | LockSet (canRefresh : bool)
  | LockDone (canRefresh : bool)
  | UnlockStart
  | UnlockHeld
  | UnlockSet
  | UnlockDone.

Record shared := mkShared { mu : Mutex; refreshing : bool }.

(** The next statement of a caller at [p]. *)
Definition step1 (s : shared) (p : pc) : option (shared * pc) :=
  match p with
  | LockStart => m ← Lock (mu s); Some (mkShared m (refreshing s), LockHeld)
  | LockHeld => Some (s, LockRead (negb (refreshing s)))
  | LockRead b => Some (mkShared (mu s) true, LockSet b)
  | LockSet b => m ← Unlock (mu s); Some (mkShared m (refreshing s), LockDone b)
  | LockDone _ => None
  | UnlockStart => m ← Lock (mu s); Some (mkShared m (refreshing s), UnlockHeld)
  | UnlockHeld => Some (mkShared (mu s) false, UnlockSet)
  | UnlockSet => m ← Unlock (mu s); Some (mkShared m (refreshing s), UnlockDone)
  | UnlockDone => None
  end.

(** Where callers are, for counting them: about to call, holding the
    mutex, holding it with [canRefresh = b] read and the flag not yet
    written, past a [lockEntry] write after reading true, past an
    [unlockEntry] write, returned from [lockEntry] with true. *)
Definition starting (p : pc) : bool :=
  match p with LockStart | UnlockStart => true | _ => false end.
Definition holding (p : pc) : bool :=
  match p with
  | LockHeld | LockRead _ | LockSet _ | UnlockHeld | UnlockSet => true
  | _ => false
  end.
Definition reading (b : bool) (p : pc) : bool :=
  match p with LockRead b' => bool_decide (b' = b) | _ => false end.
Definition won (p : pc) : bool :=
  match p with LockSet true | LockDone true => true | _ => false end.
Definition reset (p : pc) : bool :=
  match p with UnlockSet | UnlockDone => true | _ => false end.
Definition returned_true (p : pc) : bool :=
  match p with LockDone true => true | _ => false end.

(** Holding the mutex and not between the read and the write. *)
Definition writing (p : pc) : bool :=
  match p with LockHeld | LockSet _ | UnlockHeld | UnlockSet => true | _ => false end.

(** Returned from [lockEntry]. *)
Definition is_done (p : pc) : bool :=
  match p with LockDone _ => true | _ => false end.

(** Past the write of [lockEntry]. *)
Definition passed (p : pc) : bool :=
  match p with LockSet _ | LockDone _ => true | _ => false end.

(** One step of caller [i]; [None] when it has returned or cannot
    proceed. *)
Definition step_at (i : nat) (cfg : shared * list pc) : option (shared * list pc) :=
  p ← cfg.2 !! i;
  '(s, p) ← step1 cfg.1 p;
  Some (s, <[i := p]> cfg.2).

(** Runs the callers in the order the schedule picks them. *)
Fixpoint schedule (sched : list nat) (cfg : shared * list pc)
    : option (shared * list pc) :=
  match sched with
  | [] => Some cfg
  | i :: sched => cfg ← step_at i cfg; schedule sched cfg
  end.

Definition idle : shared := mkShared false false.

Definition count (f : pc → bool) (ts : list pc) : nat := length (filter f ts).

(** What every reachable configuration satisfies: the mutex is held
    exactly when one caller is inside; a caller between read and write has
    read the flag as it still is; the callers that won are at most the
    resets, plus one while the flag is set; and once some [lockEntry] has
    written the flag, some caller has won. *)
Definition inv (cfg : shared * list pc) : Prop :=
  let '(s, ts) := cfg in
  count holding ts = (if mu s then 1 else 0)%nat ∧
  (if refreshing s
   then count (reading true) ts = 0%nat ∧ (count won ts ≤ count reset ts + 1)%nat ∧
        (1 ≤ count passed ts)%nat
   else count (reading false) ts = 0%nat ∧ (count won ts ≤ count reset ts)%nat) ∧
  ((1 ≤ count passed ts)%nat → (1 ≤ count won ts)%nat).

(** How many statements a caller at [p] still has to run. *)
Definition remaining (p : pc) : nat :=
  match p with
  | LockStart => 4
  | LockHeld => 3
  | LockRead _ => 2
  | LockSet _ => 1
  | LockDone _ => 0
  | UnlockStart => 3
  | UnlockHeld => 2
  | UnlockSet => 1
  | UnlockDone => 0
  end.

(** The statements all callers together still have to run. *)
Definition togo (ts : list pc) : nat := sum_list (remaining <$> ts).

(** Returned from [lockEntry] or [unlockEntry]. *)
Definition finished (p : pc) : bool :=
  match p with LockDone _ | UnlockDone => true | _ => false end.

(** Whether a call is [lockEntry]. *)
Definition isLock (c : call) : bool :=
  match c with CallLock => true | CallUnlock => false end.

End Policy.

(* ===================================================================== *)
(** * The local cache *)
(* ===================================================================== *)

Module LocalCache.

(** [const defaultMaximumSize = 1<<31 - 1] *)
Definition defaultMaximumSize : Z := Z.shiftl 1 31 - 1.

(** A [*list.Element] is an address. *)
Abbreviation Element := nat.

Section Model.
(** [Key], [Value] and [OnRemoval] are declared outside the file.  Keys
    index a Go map; a call of the removal listener is an effect outside
    the cache, recorded as the events it emits. *)
Context `{Countable Key} {Value Time Event : Type}.

Definition OnRemoval : Type := Key → Value → list Event.

Record entry := mkEntry {
  key : Key;
  value : Value;
  lastAccess : Time
}.

(** ** [container/list]

    The elements a list has allocated ([elements]: address to the
    element's [Value], always a [*entry] here, kept by value since no two
    elements share an entry), the next free address, and the addresses
    linked into the list, front to back.  An element [e] with
    [e.list == l] is one that occurs in [order]. *)
Record List := mkList {
  elements : gmap nat entry;
  fresh : Element;
  order : list Element
}.

Definition zeroList : List := mkList ∅ 0 [].

(** [Init] empties the list; elements linked before stay allocated. *)
Definition Init (l : List) : List :=
  mkList (elements l) (fresh l) [].

Definition Len (l : List) : Z := Z.of_nat (length (order l)).

Definition Back (l : List) : option Element := last (order l).

Definition PushFront (v : entry) (l : List) : List * Element :=
  let e := fresh l in
  (mkList (<[e := v]> (elements l)) (S e) (e :: order l), e).

Definition unlink (e : Element) (es : list Element) : list Element :=
  filter (λ x, x ≠ e) es.

(** [MoveToFront]: nothing happens when [e] is not an element of [l] or
    is already at the front. *)
Definition MoveToFront (e : Element) (l : List) : List :=
  if bool_decide (e ∉ order l) || bool_decide (head (order l) = Some e)
  then l
  else mkList (elements l) (fresh l) (e :: unlink e (order l)).

(** [Remove]: only when [e] is an element of [l]. *)
Definition Remove (e : Element) (l : List) : List :=
  if bool_decide (e ∈ order l)
  then mkList (elements l) (fresh l) (unlink e (order l))
  else l.

(** [el.Value.( *entry)]; [None] is the run-time panic of an invalid
    address. *)
Definition getValue (e : Element) (l : List) : option entry :=
  elements l !! e.

(** [el.Value = en], and the in-place updates of [*el.Value]. *)
Definition setValue (e : Element) (en : entry) (l : List) : option List :=
  _ ← elements l !! e;
  Some (mkList (<[e := en]> (elements l)) (fresh l) (order l)).

(** ** [localCache]

    The two mutexes are left out: every method releases what it
    acquired before returning, and the functions below are the methods
    run one call at a time. *)
Record localCache := mkLocalCache {
  maximumSize : Z;
  onRemoval : option OnRemoval;
  cache : gmap Key nat;
  entries : List
}.

Definition set_maximumSize (n : Z) (c : localCache) : localCache :=
  mkLocalCache n (onRemoval c) (cache c) (entries c).
Definition set_onRemoval (f : option OnRemoval) (c : localCache) : localCache :=
  mkLocalCache (maximumSize c) f (cache c) (entries c).
Definition set_cache (m : gmap Key nat) (c : localCache) : localCache :=
  mkLocalCache (maximumSize c) (onRemoval c) m (entries c).
Definition set_entries (l : List) (c : localCache) : localCache :=
  mkLocalCache (maximumSize c) (onRemoval c) (cache c) l.

Definition newLocalCache : localCache :=
  mkLocalCache defaultMaximumSize None ∅ (Init zeroList).

(** [GetIfPresent]: the cache afterwards and the result, [Some v] for
    [(v, true)] and [None] for [(nil, false)]; [now] is what
    [currentTime()] returns. *)
Definition GetIfPresent (c : localCache) (k : Key) (now : Time)
    : option (localCache * option Value) :=
  match cache c !! k with
  | None => Some (c, None)
  | Some el =>
      en ← getValue el (entries c);
      l ← setValue el (mkEntry (key en) (value en) now) (entries c);
      let v := value en in
      let l := MoveToFront el l in
      Some (set_entries l c, Some v)
  end.

(** [removeOldest]: the cache afterwards and the removed entry. *)
Definition removeOldest (c : localCache) : option (localCache * option entry) :=
  match Back (entries c) with
  | None => Some (c, None)
  | Some el =>
      let l := Remove el (entries c) in
      en ← getValue el l;
      Some (set_cache (delete (key en) (cache c)) (set_entries l c), Some en)
  end.

(** [Put]: the cache afterwards and the events of the listener call. *)
Definition Put (c : localCache) (k : Key) (v : Value) (now : Time)
    : option (localCache * list Event) :=
  match cache c !! k with
  | Some el =>
      (* Update list element value *)
      en ← getValue el (entries c);
      l ← setValue el (mkEntry (key en) v now) (entries c);
      Some (set_entries (MoveToFront el l) c, [])
  | None =>
      let en := mkEntry k v now in
      '(c, remEn) ←
        (* Double check *)
        match cache c !! k with
        | Some el =>
            (* Replace list element value *)
            l ← setValue el en (entries c);
            Some (set_entries (MoveToFront el l) c, None)
        | None =>
            (* Add new element *)
            let '(l, el) := PushFront en (entries c) in
            let c := set_cache (<[k := el]> (cache c)) (set_entries l c) in
            if bool_decide (maximumSize c > 0)%Z
               && bool_decide (Len (entries c) > maximumSize c)%Z
            then removeOldest c
            else Some (c, None)
        end;
      match onRemoval c, remEn with
      | Some f, Some remEn => Some (c, f (key remEn) (value remEn))
      | _, _ => Some (c, [])
      end
  end.

(** [Invalidate] *)
Definition Invalidate (c : localCache) (k : Key)
    : option (localCache * list Event) :=
  match cache c !! k with
  | None => Some (c, [])
  | Some el =>
      let l := Remove el (entries c) in
      let c := set_cache (delete k (cache c)) (set_entries l c) in
      match onRemoval c with
      | None => Some (c, [])
      | Some f =>
          en ← getValue el (entries c);
          Some (c, f (key en) (value en))
      end
  end.

(** [InvalidateAll].  Go leaves the order of [range oldCache] open; the
    model walks the old map in the order of [map_to_list]. *)
Definition InvalidateAll (c : localCache) : option (localCache * list Event) :=
  let oldCache := cache c in
  let c := set_cache ∅ (set_entries (Init (entries c)) c) in
  match onRemoval c with
  | None => Some (c, [])
  | Some f =>
      evs ← mapM (λ kel : Key * nat,
                    en ← getValue kel.2 (entries c);
                    Some (f (key en) (value en)))
                 (map_to_list oldCache);
      Some (c, concat evs)
  end.

(** ** Construction *)

(** [Option] is a function on [*localCache]; the file builds them with
    [WithMaximumSize] and [WithRemovalListener] only. *)
Inductive Option :=
  | WithMaximumSize (size : Z)
  | WithRemovalListener (onRemoval : option OnRemoval).

Definition applyOption (opt : Option) (c : localCache) : localCache :=
  match opt with
  | WithMaximumSize size => set_maximumSize size c
  | WithRemovalListener f => set_onRemoval f c
  end.

Definition New (options : list Option) : localCache :=
  foldl (λ c opt, applyOption opt c) newLocalCache options.

(** ** Call sequences *)

Inductive call :=
  | CallPut (k : Key) (v : Value) (now : Time)
  | CallGetIfPresent (k : Key) (now : Time)
  | CallInvalidate (k : Key)
  | CallInvalidateAll.

Definition exec (c : localCache) (op : call) : option (localCache * list Event) :=
  match op with
  | CallPut k v now => Put c k v now
  | CallGetIfPresent k now => '(c, _) ← GetIfPresent c k now; Some (c, [])
  | CallInvalidate k => Invalidate c k
  | CallInvalidateAll => InvalidateAll c
  end.

(** Runs the calls in order and collects the listener's events. *)
Fixpoint run (c : localCache) (ops : list call) : option (localCache * list Event) :=
  match ops with
  | [] => Some (c, [])
  | op :: ops =>
      '(c, evs1) ← exec c op;
      '(c, evs2) ← run c ops;
      Some (c, evs1 ++ evs2)
  end.
End Model.

Arguments entry : clear implicits.
Arguments List : clear implicits.
Arguments OnRemoval : clear implicits.
Arguments localCache Key {_ _} Value Time Event.
Arguments Option Key Value Event : clear implicits.
Arguments call : clear implicits.

End LocalCache.

(* ===================================================================== *)
(** * What the local cache holds, and its invariant *)
(* ===================================================================== *)

Module LRU.
Import LocalCache.

Section View.
Context `{Countable Key} {Value Time : Type}.

(** The key and value an entry stands for. *)
Definition pair_of (en : entry Key Value Time) : Key * Value :=
  (key en, value en).

(** The pairs held by the elements [es], read through the allocated
    elements [m]. *)
Definition views (m : gmap nat (entry Key Value Time)) (es : list nat)
    : list (Key * Value) :=
  omap (λ e, pair_of <$> m !! e) es.

(** The live entries of a list, front (most recent) to back. *)
Definition view (l : List Key Value Time) : list (Key * Value) :=
  views (elements l) (order l).

(** The listener that records the pair it is called with. *)
Definition recorder : OnRemoval Key Value (Key * Value) :=
  λ k v, [(k, v)].

Section WithEvent.
Context {Event : Type}.
Implicit Types c : localCache Key Value Time Event.

(** What a lookup of each indexed key would find. *)
Definition contents c : gmap Key Value :=
  omap (λ e, value <$> elements (entries c) !! e) (cache c).

(** The events of calling the listener, if there is one, on each of
    the pairs [rem] in turn. *)
Definition fire (f : option (OnRemoval Key Value Event))
    (rem : list (Key * Value)) : list Event :=
  match f with
  | None => []
  | Some f => concat ((λ kv, f kv.1 kv.2) <$> rem)
  end.

(** The index and the list agree: the linked elements are distinct and
    allocated, allocated addresses are below the next free one, and the
    index sends [k] to [e] exactly when [e] is linked and holds an entry
    for [k]. *)
Record wf c : Prop := mkWf {
  wf_nodup : NoDup (order (entries c));
  wf_alloc : ∀ e, e ∈ order (entries c) → is_Some (elements (entries c) !! e);
  wf_fresh : ∀ e, is_Some (elements (entries c) !! e) → (e < fresh (entries c))%nat;
  wf_index : ∀ k e, cache c !! k = Some e ↔
               e ∈ order (entries c) ∧ key <$> elements (entries c) !! e = Some k
}.
End WithEvent.

(** ** The same operations on the list of live pairs *)

Definition without (k : Key) (l : list (Key * Value)) : list (Key * Value) :=
  filter (λ kv, kv.1 ≠ k) l.

Definition only (k : Key) (l : list (Key * Value)) : list (Key * Value) :=
  filter (λ kv, kv.1 = k) l.

Definition find (k : Key) (l : list (Key * Value)) : option Value :=
  snd <$> head (only k l).

Definition lru_get (k : Key) (l : list (Key * Value)) : list (Key * Value) :=
  match find k l with
  | Some v => (k, v) :: without k l
  | None => l
  end.

(** The list afterwards and the pairs that left it. *)
Definition lru_put (M : Z) (k : Key) (v : Value) (l : list (Key * Value))
    : list (Key * Value) * list (Key * Value) :=
  match find k l with
  | Some _ => ((k, v) :: without k l, [])
  | None =>
      if bool_decide (M > 0)%Z && bool_decide (Z.of_nat (S (length l)) > M)%Z
      then (removelast ((k, v) :: l), option_list (last ((k, v) :: l)))
      else ((k, v) :: l, [])
  end.

Definition lru_exec (M : Z) (op : call Key Value Time) (l : list (Key * Value))
    : list (Key * Value) * list (Key * Value) :=
  match op with
  | CallPut k v _ => lru_put M k v l
  | CallGetIfPresent k _ => (lru_get k l, [])
  | CallInvalidate k => (without k l, only k l)
  | CallInvalidateAll => ([], l)
  end.

Fixpoint lru_run (M : Z) (ops : list (call Key Value Time)) (l : list (Key * Value))
    : list (Key * Value) * list (Key * Value) :=
  match ops with
  | [] => (l, [])
  | op :: ops =>
      let '(l1, r1) := lru_exec M op l in
      let '(l2, r2) := lru_run M ops l1 in
      (l2, r1 ++ r2)
  end.

(** ** What a history of calls says, without running the cache *)

(** The value of the last [Put] of [k]. *)
Fixpoint last_put (k : Key) (ops : list (call Key Value Time)) : option Value :=
  match ops with
  | [] => None
  | op :: ops =>
      match last_put k ops with
      | Some v => Some v
      | None =>
          match op with
          | CallPut k' v _ => if bool_decide (k' = k) then Some v else None
          | _ => None
          end
      end
  end.

(** The keys put and not invalidated since. *)
Definition live_step (s : gset Key) (op : call Key Value Time) : gset Key :=
  match op with
  | CallPut k _ _ => {[k]} ∪ s
  | CallGetIfPresent _ _ => s
  | CallInvalidate k => s ∖ {[k]}
  | CallInvalidateAll => ∅
  end.

Definition live_keys (ops : list (call Key Value Time)) : gset Key :=
  foldl live_step ∅ ops.

Definition is_put_of (k : Key) (op : call Key Value Time) : bool :=
  match op with
  | CallPut k' _ _ => bool_decide (k' = k)
  | _ => false
  end.

(** What a run shows: the live pairs, front to back, and the listener's
    events. *)
Definition observe {Event : Type}
    (r : option (localCache Key Value Time Event * list Event))
    : option (list (Key * Value) * list Event) :=
  (λ r, (view (entries r.1), r.2)) <$> r.

Definition put_calls (kvs : list (Key * Value * Time)) : list (call Key Value Time) :=
  (λ p, CallPut p.1.1 p.1.2 p.2) <$> kvs.
End View.

(** Whether an option sets the maximum size. *)
Definition setsMaximumSize `{Countable Key} {Value Event : Type}
    (opt : Option Key Value Event) : bool :=
  match opt with
  | WithMaximumSize _ => true
  | WithRemovalListener _ => false
  end.

End LRU.

(* ===================================================================== *)
(** * Theorems about policy.go *)
(* ===================================================================== *)

Module PolicyTheorems.
Import Policy.

Section Interleaving.
Implicit Types (f g : pc → bool) (ts : list pc) (s : shared) (p q : pc).

Lemma count_cons f p ts : count f (p :: ts) = ((if f p then 1 else 0) + count f ts)%nat.
Proof. unfold count. rewrite filter_cons. by destruct (f p). Qed.

Lemma count_insert f ts i p q :
  ts !! i = Some p →
  (count f (<[i := q]> ts) + (if f p then 1 else 0) =
   count f ts + (if f q then 1 else 0))%nat.
Proof.
  revert i. induction ts as [|x ts IH]; intros [|i] Hi; simplify_eq/=;
    rewrite !count_cons; [lia|]. specialize (IH i Hi). lia.
Qed.

Lemma count_le f g ts : (∀ p, f p = true → g p = true) → (count f ts ≤ count g ts)%nat.
Proof.
  intros Hfg. induction ts as [|x ts IH]; [done|]. rewrite !count_cons.
  specialize (Hfg x). destruct (f x), (g x); lia.
Qed.

Lemma count_pos f ts i p : ts !! i = Some p → f p = true → (1 ≤ count f ts)%nat.
Proof.
  revert i. induction ts as [|x ts IH]; intros [|i] Hi Hp; simplify_eq/=;
    rewrite count_cons; [rewrite Hp; lia|]. specialize (IH i Hi Hp). lia.
Qed.

Lemma count_holding ts :
  count holding ts =
    (count (reading true) ts + count (reading false) ts + count writing ts)%nat.
Proof.
  induction ts as [|p ts IH]; [done|]. rewrite !count_cons, IH.
  destruct p as [| |[]|[]|[]| | | |]; simpl; lia.
Qed.

Lemma count_starting ts :
  forallb starting ts = true →
  count holding ts = 0%nat ∧ count (reading true) ts = 0%nat ∧
  count (reading false) ts = 0%nat ∧ count won ts = 0%nat ∧
  count reset ts = 0%nat ∧ count passed ts = 0%nat.
Proof.
  induction ts as [|p ts IH]; [done|]. simpl.
  intros [Hp Hts]%andb_prop. rewrite !count_cons.
  destruct (IH Hts) as (-> & -> & -> & -> & -> & ->). by destruct p.
Qed.

Lemma inv_step i cfg cfg' : inv cfg → step_at i cfg = Some cfg' → inv cfg'.
Proof.
  destruct cfg as [s ts]. unfold step_at. simpl. intros Hinv Hstep.
  destruct (ts !! i) as [p|] eqn:Hi; [|done]. simpl in Hstep.
  destruct (step1 s p) as [[s' p']|] eqn:Hs; simplify_eq/=.
  destruct Hinv as (Hmu & Hr & Hp).
  pose proof (count_insert holding ts i p p' Hi) as Hh.
  pose proof (count_insert (reading true) ts i p p' Hi) as Ht.
  pose proof (count_insert (reading false) ts i p p' Hi) as Hf.
  pose proof (count_insert won ts i p p' Hi) as Hw.
  pose proof (count_insert reset ts i p p' Hi) as Hre.
  pose proof (count_insert passed ts i p p' Hi) as Hpa.
  pose proof (count_holding ts) as Hsum.
  assert (writing p = true → 1 ≤ count writing ts)%nat as Hwr
    by apply (count_pos _ _ _ _ Hi).
  destruct s as [m r], p as [| |b|b|b| | | |]; simpl in *;
    destruct m; simplify_eq/=; try (destruct r; simpl in *; lia).
  all: destruct b; destruct r; simpl in *; lia.
Qed.

Lemma inv_idle ts : forallb starting ts = true → inv (idle, ts).
Proof.
  intros (Hh & _ & Hf & Hw & Hr & Hp)%count_starting. unfold inv, idle. simpl.
  rewrite Hh, Hf, Hw, Hr, Hp. lia.
Qed.

Lemma inv_schedule sched : ∀ cfg cfg',
  inv cfg → schedule sched cfg = Some cfg' → inv cfg'.
Proof.
  induction sched as [|i sched IH]; intros cfg cfg' Hinv Hs; simplify_eq/=; [done|].
  destruct (step_at i cfg) as [cfg1|] eqn:H1; simplify_eq/=.
  eapply IH; [|done]. by eapply inv_step.
Qed.
End Interleaving.

Section Winners.
Implicit Types (ts : list pc).

Lemma count_all_done ts :
  forallb is_done ts = true →
  count passed ts = length ts ∧ count won ts = count returned_true ts ∧
  count reset ts = 0%nat.
Proof.
  induction ts as [|p ts IH]; [done|]. simpl.
  intros [Hp Hts]%andb_prop. rewrite !count_cons.
  destruct (IH Hts) as (-> & -> & ->). by destruct p as [| | | |[]| | | |].
Qed.

Lemma schedule_winners callers sched s ts :
  forallb starting callers = true →
  schedule sched (idle, callers) = Some (s, ts) →
  (count returned_true ts ≤ count reset ts + 1)%nat ∧
  (ts ≠ [] → forallb is_done ts = true → count returned_true ts = 1%nat).
Proof.
  intros Hc Hs. pose proof (inv_schedule sched _ _ (inv_idle callers Hc) Hs) as Hinv.
  destruct Hinv as (_ & Hr & Hp).
  assert (count returned_true ts ≤ count won ts)%nat as Hle
    by (apply count_le; by intros [| | | |[]| | | |]).
  split; [destruct (refreshing s); lia|].
  intros Hne (Hpa & Hw & Hre)%count_all_done.
  assert (1 ≤ length ts)%nat by (destruct ts; [done|simpl; lia]).
  destruct (refreshing s); lia.
Qed.
End Winners.

Section EntryProofs.
Context {Key Value Time ListID : Type}.
Implicit Types en : entry Key Value Time ListID.

Lemma lockEntry_free en :
  refreshMu en = false →
  lockEntry en = Some (set_isRefreshing true en, negb (isRefreshing en)).
Proof. destruct en as [??????[]?]; [done|]. by intros _. Qed.

Lemma unlockEntry_free en :
  refreshMu en = false → unlockEntry en = Some (set_isRefreshing false en).
Proof. destruct en as [??????[]?]; [done|]. by intros _. Qed.

Lemma run_locks_refreshing en n :
  refreshMu en = false → isRefreshing en = true →
  run en (replicate n CallLock) = Some (en, replicate n false).
Proof.
  intros Hmu Hr. induction n as [|n IH]; [done|]. simpl.
  rewrite lockEntry_free by done. simpl.
  replace (set_isRefreshing true en) with en by (destruct en; simpl in *; by subst).
  rewrite IH. simpl. by rewrite Hr.
Qed.

(** A caller that runs alone goes through the statements of [lockEntry],
    and of [unlockEntry], to the result of the function. *)
Lemma lockEntry_steps en :
  refreshMu en = false →
  ∃ en' b,
    lockEntry en = Some (en', b) ∧
    schedule [0; 0; 0; 0]%nat (mkShared (refreshMu en) (isRefreshing en), [LockStart])
      = Some (mkShared (refreshMu en') (isRefreshing en'), [LockDone b]).
Proof.
  intros Hmu. rewrite lockEntry_free by done. eexists _, _. split; [done|].
  rewrite Hmu. by destruct en as [??????[]?].
Qed.

Lemma unlockEntry_steps en :
  refreshMu en = false →
  ∃ en',
    unlockEntry en = Some en' ∧
    schedule [0; 0; 0]%nat (mkShared (refreshMu en) (isRefreshing en), [UnlockStart])
      = Some (mkShared (refreshMu en') (isRefreshing en'), [UnlockDone]).
Proof.
  intros Hmu. rewrite unlockEntry_free by done. eexists. split; [done|].
  rewrite Hmu. by destruct en as [??????[]?].
Qed.

(** C3.  Refresh exclusion.  On an entry whose mutex is free, [lockEntry]
    returns true exactly when the entry was not refreshing, and leaves it
    refreshing; any number [n] of further [lockEntry] calls all return
    false; after [unlockEntry], [lockEntry] returns true again.  For
    callers that run statement by statement under any schedule, starting
    from an idle entry: the number of [lockEntry] calls that have returned
    true is at most one more than the number of [unlockEntry] calls that
    have reset the flag, and when there are only [lockEntry] callers and
    all have returned, exactly one of them got true. *)
Theorem refresh_exclusion en (n : nat) (callers : list pc) (sched : list nat) s ts :
  refreshMu en = false →
  forallb starting callers = true →
  schedule sched (idle, callers) = Some (s, ts) →
  (∃ en1,
      lockEntry en = Some (en1, negb (isRefreshing en)) ∧
      isRefreshing en1 = true ∧ refreshMu en1 = false ∧
      ∃ en2,
        run en1 (replicate n CallLock) = Some (en2, replicate n false) ∧
        ∃ en3 en4,
          unlockEntry en2 = Some en3 ∧ isRefreshing en3 = false ∧
          lockEntry en3 = Some (en4, true)) ∧
  (count returned_true ts ≤ count reset ts + 1)%nat ∧
  (ts ≠ [] → forallb is_done ts = true → count returned_true ts = 1%nat).
Proof.
  intros Hmu Hc Hs. split; [|by eapply schedule_winners].
  exists (set_isRefreshing true en). split; [by apply lockEntry_free|].
  do 2 (split; [done|]). exists (set_isRefreshing true en).
  split; [by apply run_locks_refreshing|].
  exists (set_isRefreshing false (set_isRefreshing true en)),
         (set_isRefreshing true (set_isRefreshing false (set_isRefreshing true en))).
  split; [by apply unlockEntry_free|]. split; [done|]. by apply lockEntry_free.
Qed.

(** C9.  [unlockEntry] on an entry whose mutex is free, refreshing or
    not, returns normally and changes nothing but the flag, which it sets
    to false; a second [unlockEntry] leaves the entry as it is. *)
Theorem unlockEntry_resets en :
  refreshMu en = false →
  unlockEntry en = Some (set_isRefreshing false en) ∧
  isRefreshing (set_isRefreshing false en) = false ∧
  unlockEntry (set_isRefreshing false en) = Some (set_isRefreshing false en).
Proof.
  intros Hmu. split; [by apply unlockEntry_free|]. split; [done|].
  by rewrite unlockEntry_free.
Qed.
End EntryProofs.

Lemma eqb_name (a b : string) : String.eqb a b = bool_decide (a = b).
Proof.
  destruct (String.eqb_spec a b);
    [by rewrite bool_decide_eq_true_2|by rewrite bool_decide_eq_false_2].
Qed.

Lemma newPolicy_cases (name : string) :
  ((name = EmptyString ∨ name = "slru") ∧ newPolicy name = Ok slruCache) ∨
  (name = "lru" ∧ newPolicy name = Ok lruCache) ∨
  (name = "tinylfu" ∧ newPolicy name = Ok tinyLFU) ∨
  ((name ∉ [EmptyString; "slru"; "lru"; "tinylfu"]) ∧
   newPolicy name = Panic ("cache: unsupported policy " +:+ name)).
Proof.
  unfold newPolicy. rewrite !eqb_name.
  case_bool_decide as H1; [by left; split; [left|]|].
  case_bool_decide as H2; [by left; split; [right|]|]. simpl.
  case_bool_decide as H3; [by right; left|].
  case_bool_decide as H4; [by right; right; left|].
  right. right. right. split; [|done].
  rewrite !not_elem_of_cons. repeat split; try done. apply not_elem_of_nil.
Qed.

(** C7, amended.  [newPolicy] returns the segmented LRU policy for the
    empty name and for "slru", the LRU policy for "lru" and the TinyLFU policy for
    "tinylfu"; it panics, with a message that ends in the name, exactly for
    the names outside these four. *)
Theorem newPolicy_names (name : string) :
  (newPolicy name = Ok slruCache ↔ name = EmptyString ∨ name = "slru") ∧
  (newPolicy name = Ok lruCache ↔ name = "lru") ∧
  (newPolicy name = Ok tinyLFU ↔ name = "tinylfu") ∧
  (∀ msg, newPolicy name = Panic msg ↔
          (name ∉ [EmptyString; "slru"; "lru"; "tinylfu"]) ∧
          msg = ("cache: unsupported policy " +:+ name)).
Proof.
  destruct (newPolicy_cases name)
    as [[[-> | ->] Hn]|[[-> Hn]|[[-> Hn]|[Hnot Hn]]]]; rewrite Hn.
  1-4: repeat split; try done; try (by intros [? ?]; exfalso; set_solver);
       try (intros [|]; done); try (by intros [[=] | [=]]); auto.
  - rewrite !not_elem_of_cons in Hnot. destruct Hnot as (? & ? & ? & ? & _).
    repeat split; try done; try (by intros [|]).
    + rewrite !not_elem_of_cons. repeat split; try done. apply not_elem_of_nil.
    + congruence.
    + by intros [_ ->].
Qed.

(** C7, as stated, fails: the empty name is not one of "lru", "slru",
    "tinylfu", and [newPolicy] returns for it. *)
Lemma newPolicy_empty_name :
  ¬ ∀ name, name ∉ ["lru"; "slru"; "tinylfu"] → ∃ msg, newPolicy name = Panic msg.
Proof.
  intros Hall. destruct (Hall EmptyString) as [msg Hmsg]; [|done].
  rewrite !not_elem_of_cons. repeat split; try done. apply not_elem_of_nil.
Qed.

(** ** The theorems at concrete calls *)

Example newPolicy_lru : newPolicy "lru" = Ok lruCache.
Proof. reflexivity. Qed.

Example newPolicy_default : newPolicy EmptyString = Ok slruCache.
Proof. reflexivity. Qed.

Example newPolicy_unknown :
  newPolicy "arc" = Panic "cache: unsupported policy arc".
Proof. reflexivity. Qed.

Example run_lock_unlock_lock :
  snd <$> run (mkEntry 1 10 0 0 0 7%Z false false)
              [CallLock; CallLock; CallUnlock; CallUnlock; CallLock; CallLock]
  = Some [true; false; true; false].
Proof. reflexivity. Qed.

Lemma refresh_exclusion_witness :
  (refreshMu (mkEntry 1 10 0 0 0 7%Z false false) = false ∧
   forallb starting [LockStart; LockStart] = true ∧
   schedule [0; 0; 0; 0; 1; 1; 1; 1]%nat (idle, [LockStart; LockStart])
     = Some (mkShared false true, [LockDone true; LockDone false])) ∧
  (∃ en1,
      lockEntry (mkEntry 1 10 0 0 0 7%Z false false)
        = Some (en1, negb (isRefreshing (mkEntry 1 10 0 0 0 7%Z false false))) ∧
      isRefreshing en1 = true ∧ refreshMu en1 = false ∧
      ∃ en2,
        run en1 (replicate 3 CallLock) = Some (en2, replicate 3 false) ∧
        ∃ en3 en4,
          unlockEntry en2 = Some en3 ∧ isRefreshing en3 = false ∧
          lockEntry en3 = Some (en4, true)) ∧
  (count returned_true [LockDone true; LockDone false]
     ≤ count reset [LockDone true; LockDone false] + 1)%nat ∧
  ([LockDone true; LockDone false] ≠ [] →
   forallb is_done [LockDone true; LockDone false] = true →
   count returned_true [LockDone true; LockDone false] = 1%nat).
Proof.
  split; [repeat split; reflexivity|].
  apply (refresh_exclusion (mkEntry 1 10 0 0 0 7%Z false false) 3
           [LockStart; LockStart] [0; 0; 0; 0; 1; 1; 1; 1]%nat
           (mkShared false true) [LockDone true; LockDone false]);
    reflexivity.
Defined.

Lemma unlockEntry_resets_witness :
  refreshMu (mkEntry 1 10 0 0 0 7%Z false false) = false ∧
  unlockEntry (mkEntry 1 10 0 0 0 7%Z false false)
    = Some (set_isRefreshing false (mkEntry 1 10 0 0 0 7%Z false false)) ∧
  isRefreshing (set_isRefreshing false (mkEntry 1 10 0 0 0 7%Z false false)) = false ∧
  unlockEntry (set_isRefreshing false (mkEntry 1 10 0 0 0 7%Z false false))
    = Some (set_isRefreshing false (mkEntry 1 10 0 0 0 7%Z false false)).
Proof.
  split; [reflexivity|].
  apply (unlockEntry_resets (mkEntry 1 10 0 0 0 7%Z false false)). reflexivity.
Defined.

End PolicyTheorems.

(* ===================================================================== *)
(** * More about the refresh flag *)
(* ===================================================================== *)

Module PolicyMore.
Import Policy PolicyTheorems.

Section Sequences.
Context {Key Value Time ListID : Type}.
Implicit Types en : entry Key Value Time ListID.

(** X13.  Any sequence of [lockEntry] and [unlockEntry] calls on an entry whose
    mutex is free runs to the end and leaves the mutex free; it changes
    nothing but the flag; every [lockEntry] gives one result; and the
    results that are true are at most the [unlockEntry] calls of the
    sequence, plus one when the entry was not refreshing at the start. *)
Theorem lock_calls_never_block en cs :
  refreshMu en = false →
  ∃ en' bs,
    run en cs = Some (en', bs) ∧
    refreshMu en' = false ∧
    set_isRefreshing (isRefreshing en) en' = en ∧
    length bs = length (filter isLock cs) ∧
    (length (filter (λ b, b = true) bs)
       ≤ length (filter (λ c, negb (isLock c)) cs)
         + (if isRefreshing en then 0 else 1))%nat.
Proof.
  revert en. induction cs as [|[] cs IH]; intros en Hmu.
  - exists en, []. repeat split; [done|by destruct en|simpl; lia].
  - simpl. rewrite lockEntry_free by done. simpl.
    destruct (IH (set_isRefreshing true en) Hmu) as (en' & bs & -> & Hmu' & Hsame & Hlen & Hle).
    simpl. eexists _, _. split; [done|]. split; [done|].
    split; [destruct en, en'; simplify_eq/=; done|].
    rewrite !filter_cons. simpl. split; [by rewrite Hlen|].
    simpl in Hle. destruct (isRefreshing en); simpl; lia.
  - simpl. rewrite unlockEntry_free by done. simpl.
    destruct (IH (set_isRefreshing false en) Hmu) as (en' & bs & -> & Hmu' & Hsame & Hlen & Hle).
    eexists _, _. split; [done|]. split; [done|].
    split; [destruct en, en'; simplify_eq/=; done|].
    rewrite !filter_cons. simpl. split; [done|].
    simpl in Hle. destruct (isRefreshing en); lia.
Qed.
End Sequences.

Section Callers.
Implicit Types (ts : list pc) (s : shared) (p : pc).

Lemma count_exists (f : pc → bool) ts :
  (1 ≤ count f ts)%nat → ∃ i p, ts !! i = Some p ∧ f p = true.
Proof.
  induction ts as [|p ts IH]; [intros Hc; unfold count in Hc; simpl in Hc; lia|].
  rewrite count_cons.
  destruct (f p) eqn:Hp.
  - intros _. by exists 0%nat, p.
  - intros (i & q & ? & ?)%IH. by exists (S i), q.
Qed.

Lemma count_zero (f : pc → bool) ts i p :
  count f ts = 0%nat → ts !! i = Some p → f p = false.
Proof.
  intros H0 Hi. destruct (f p) eqn:Hp; [|done].
  pose proof (count_pos f ts i p Hi Hp). lia.
Qed.

Lemma forallb_false_exists (f : pc → bool) ts :
  forallb f ts = false → ∃ i p, ts !! i = Some p ∧ f p = false.
Proof.
  induction ts as [|p ts IH]; [done|]. simpl. destruct (f p) eqn:Hp; simpl.
  - intros (i & q & ? & ?)%IH. by exists (S i), q.
  - intros _. by exists 0%nat, p.
Qed.

Lemma schedule_length sched : ∀ cfg cfg',
  schedule sched cfg = Some cfg' →
  length cfg'.2 = length cfg.2 ∧ (length sched + togo cfg'.2 = togo cfg.2)%nat.
Proof.
  induction sched as [|i sched IH]; intros [s ts] cfg' Hs; simplify_eq/=; [done|].
  destruct (step_at i (s, ts)) as [[s1 ts1]|] eqn:H1; simplify_eq/=.
  apply IH in Hs as [Hlen Hgo]. simpl in *.
  unfold step_at in H1. simpl in H1.
  destruct (ts !! i) as [p|] eqn:Hi; simplify_eq/=.
  destruct (step1 s p) as [[s' p']|] eqn:Hst; simplify_eq/=.
  rewrite length_insert in Hlen. split; [done|].
  assert (togo (<[i:=p']> ts) + remaining p = togo ts + remaining p')%nat as Hins.
  { clear -Hi. revert i Hi. unfold togo.
    induction ts as [|x ts IH]; intros [|i] Hi; simplify_eq/=; [lia|].
    specialize (IH i Hi). lia. }
  assert (remaining p = S (remaining p')) as Hdec.
  { destruct p; simpl in Hst; try destruct (mu s); by simplify_eq/=. }
  lia.
Qed.

(** X14.  Callers started on an idle entry, under any schedule: none is lost,
    and the mutex is held exactly when one caller is between its [Lock]
    and its [Unlock]; never two. *)
Theorem mutex_held_by_one callers sched s ts :
  forallb starting callers = true →
  schedule sched (idle, callers) = Some (s, ts) →
  length ts = length callers ∧
  count holding ts = (if mu s then 1 else 0)%nat.
Proof.
  intros Hc Hs. pose proof (inv_schedule sched _ _ (inv_idle callers Hc) Hs) as (Hh & _).
  split; [|done]. by apply schedule_length in Hs as [? _].
Qed.

(** X15.  Callers started on an idle entry never deadlock: in every
    configuration a schedule reaches, if some caller has not returned, some
    caller can run its next statement. *)
Theorem callers_never_deadlock callers sched s ts :
  forallb starting callers = true →
  schedule sched (idle, callers) = Some (s, ts) →
  forallb finished ts = false →
  ∃ i cfg, step_at i (s, ts) = Some cfg.
Proof.
  intros Hc Hs Hfin.
  pose proof (inv_schedule sched _ _ (inv_idle callers Hc) Hs) as (Hh & _).
  unfold step_at. simpl. destruct (mu s) eqn:Hmu.
  - destruct (count_exists holding ts) as (i & p & Hi & Hp); [lia|].
    exists i. rewrite Hi. simpl. destruct p; simplify_eq/=; rewrite ?Hmu; simpl; eauto.
  - apply forallb_false_exists in Hfin as (i & p & Hi & Hp).
    pose proof (count_zero holding ts i p Hh Hi) as Hnh.
    exists i. rewrite Hi. simpl. destruct p; simplify_eq/=; rewrite ?Hmu; simpl; eauto.
Qed.

(** X16.  Every statement a caller runs brings it closer to its return: a
    schedule of [n] steps leaves [n] statements fewer to run, so no schedule
    is longer than four steps for each [lockEntry] and three for each
    [unlockEntry], and all callers have returned exactly when it has that
    length. *)
Theorem callers_finish callers sched s ts :
  schedule sched (idle, callers) = Some (s, ts) →
  (length sched + togo ts = togo callers)%nat ∧
  (forallb finished ts = true ↔ length sched = togo callers).
Proof.
  intros Hs. apply schedule_length in Hs as [_ Hgo]. simpl in Hgo. split; [done|].
  assert (forallb finished ts = true ↔ togo ts = 0%nat) as ->; [|lia].
  clear. unfold togo. induction ts as [|p ts IH]; [done|].
  cbn [forallb]. rewrite andb_true_iff, IH, fmap_cons. cbn [sum_list].
  generalize (sum_list (remaining <$> ts)). intros m.
  destruct p; simpl; (split; [intros [? ?]; first [done|lia]|]);
    intros ?; first [lia|split; [done|lia]].
Qed.
End Callers.
(** ** These theorems at concrete calls *)

Lemma lock_calls_never_block_witness :
  refreshMu (mkEntry 1 10 0 0 0 7%Z false true) = false ∧
  ∃ en' bs,
    run (mkEntry 1 10 0 0 0 7%Z false true)
        [CallLock; CallUnlock; CallLock; CallLock; CallUnlock; CallUnlock; CallLock]
      = Some (en', bs) ∧
    refreshMu en' = false ∧
    set_isRefreshing (isRefreshing (mkEntry 1 10 0 0 0 7%Z false true)) en'
      = mkEntry 1 10 0 0 0 7%Z false true ∧
    length bs
      = length (filter isLock [CallLock; CallUnlock; CallLock; CallLock; CallUnlock;
                               CallUnlock; CallLock]) ∧
    (length (filter (λ b, b = true) bs)
       ≤ length (filter (λ c, negb (isLock c))
                   [CallLock; CallUnlock; CallLock; CallLock; CallUnlock; CallUnlock;
                    CallLock])
         + (if isRefreshing (mkEntry 1 10 0 0 0 7%Z false true) then 0 else 1))%nat.
Proof.
  split; [reflexivity|].
  apply (lock_calls_never_block (mkEntry 1 10 0 0 0 7%Z false true)
           [CallLock; CallUnlock; CallLock; CallLock; CallUnlock; CallUnlock; CallLock]).
  reflexivity.
Defined.

Lemma mutex_held_by_one_witness :
  (forallb starting [LockStart; UnlockStart; LockStart] = true ∧
   schedule [1; 1; 1; 2; 2]%nat (idle, [LockStart; UnlockStart; LockStart])
     = Some (mkShared true false, [LockStart; UnlockDone; LockRead true])) ∧
  length [LockStart; UnlockDone; LockRead true]
    = length [LockStart; UnlockStart; LockStart] ∧
  count holding [LockStart; UnlockDone; LockRead true]
    = (if mu (mkShared true false) then 1 else 0)%nat.
Proof.
  split; [split; reflexivity|].
  apply (mutex_held_by_one [LockStart; UnlockStart; LockStart] [1; 1; 1; 2; 2]%nat
           (mkShared true false) [LockStart; UnlockDone; LockRead true]);
    reflexivity.
Defined.

Lemma callers_never_deadlock_witness :
  (forallb starting [LockStart; UnlockStart; LockStart] = true ∧
   schedule [1; 1; 1; 2; 2]%nat (idle, [LockStart; UnlockStart; LockStart])
     = Some (mkShared true false, [LockStart; UnlockDone; LockRead true]) ∧
   forallb finished [LockStart; UnlockDone; LockRead true] = false) ∧
  ∃ i cfg,
    step_at i (mkShared true false, [LockStart; UnlockDone; LockRead true]) = Some cfg.
Proof.
  split; [repeat split; reflexivity|].
  apply (callers_never_deadlock [LockStart; UnlockStart; LockStart] [1; 1; 1; 2; 2]%nat
           (mkShared true false) [LockStart; UnlockDone; LockRead true]);
    reflexivity.
Defined.

Lemma callers_finish_witness :
  schedule [1; 1; 1; 0; 0; 0; 0]%nat (idle, [LockStart; UnlockStart])
    = Some (mkShared false true, [LockDone true; UnlockDone]) ∧
  (length [1; 1; 1; 0; 0; 0; 0]%nat + togo [LockDone true; UnlockDone]
     = togo [LockStart; UnlockStart])%nat ∧
  (forallb finished [LockDone true; UnlockDone] = true ↔
   length [1; 1; 1; 0; 0; 0; 0]%nat = togo [LockStart; UnlockStart]).
Proof.
  split; [reflexivity|].
  apply (callers_finish [LockStart; UnlockStart] [1; 1; 1; 0; 0; 0; 0]%nat
           (mkShared false true) [LockDone true; UnlockDone]).
  reflexivity.
Defined.

End PolicyMore.

(* ===================================================================== *)
(** * Theorems about the local cache *)
(* ===================================================================== *)

Module CacheTheorems.
Import LocalCache LRU.

Section Lists.
Context `{Countable Key} {Value Time : Type}.
Implicit Types (m : gmap nat (entry Key Value Time)) (es : list nat)
  (l : list (Key * Value)) (k : Key) (v : Value).

Lemma views_cons_Some m e es en :
  m !! e = Some en → views m (e :: es) = pair_of en :: views m es.
Proof. intros He. unfold views. simpl. by rewrite He. Qed.

Lemma views_insert_notin m e en es :
  e ∉ es → views (<[e := en]> m) es = views m es.
Proof.
  intros Hn. unfold views. apply list_omap_ext, Forall2_same_length_lookup.
  split; [done|]. intros i x y Hx Hy. simplify_eq.
  rewrite lookup_insert_ne; [done|]. intros ->. apply Hn. by eapply list_elem_of_lookup_2.
Qed.

Lemma views_length m es :
  (∀ e, e ∈ es → is_Some (m !! e)) → length (views m es) = length es.
Proof.
  induction es as [|e es IH]; intros Ha; [done|].
  destruct (Ha e) as [en Hen]; [left|].
  rewrite (views_cons_Some _ _ _ _ Hen). simpl. f_equal. apply IH.
  intros e' He'. apply Ha. by right.
Qed.

Lemma views_app m es1 es2 : views m (es1 ++ es2) = views m es1 ++ views m es2.
Proof. apply omap_app. Qed.

Lemma views_unlink m es e k :
  (∀ e', e' ∈ es → ∃ en, m !! e' = Some en ∧ (key en = k ↔ e' = e)) →
  views m (unlink e es) = without k (views m es).
Proof.
  induction es as [|e' es IH]; intros Ha; [done|].
  destruct (Ha e') as (en & Hen & Hk); [left|].
  rewrite (views_cons_Some _ _ _ _ Hen). unfold unlink, without in *.
  rewrite !filter_cons. simpl.
  assert (IH' := IH (λ x Hx, Ha x (list_elem_of_further _ _ _ Hx))).
  destruct (decide (e' ≠ e)) as [Hne|Heq]; destruct (decide (key en ≠ k)) as [Hnk|Hek].
  - rewrite (views_cons_Some _ _ _ _ Hen). by f_equal.
  - exfalso. apply Hne, Hk. by apply dec_stable.
  - exfalso. apply Hnk, Hk. by apply dec_stable.
  - done.
Qed.

Lemma views_keys m es k :
  k ∈ (views m es).*1 ↔ ∃ e en, e ∈ es ∧ m !! e = Some en ∧ key en = k.
Proof.
  unfold views. rewrite list_elem_of_fmap. split.
  - intros ([k' v] & -> & (e & He & Hf)%list_elem_of_omap).
    destruct (m !! e) as [en|] eqn:Hen; simplify_eq/=.
    exists e, en. repeat split; [done..|]. by inversion Hf.
  - intros (e & en & He & Hen & <-). exists (pair_of en). split; [done|].
    apply list_elem_of_omap. exists e. by rewrite Hen.
Qed.

Lemma only_notin k l : k ∉ l.*1 → only k l = [].
Proof.
  induction l as [|[k' v'] l IH]; [done|]. intros Hn.
  apply not_elem_of_cons in Hn as [Hne Hn]. unfold only in *.
  rewrite filter_cons. simpl in *. rewrite decide_False; [|congruence]. auto.
Qed.

Lemma without_notin k l : k ∉ l.*1 → without k l = l.
Proof.
  induction l as [|[k' v'] l IH]; [done|]. intros Hn.
  apply not_elem_of_cons in Hn as [Hne Hn]. unfold without in *.
  rewrite filter_cons. simpl in *. rewrite decide_True; [|congruence]. f_equal; auto.
Qed.

Lemma without_keys k k' l : k' ∈ (without k l).*1 ↔ k' ≠ k ∧ k' ∈ l.*1.
Proof.
  unfold without. rewrite !list_elem_of_fmap. split.
  - intros ([a b] & -> & [? ?]%list_elem_of_filter). split; [done|]. by exists (a, b).
  - intros (Hne & [a b] & -> & Hin). exists (a, b). split; [done|].
    by apply list_elem_of_filter.
Qed.

Lemma without_nodup k l : NoDup l.*1 → NoDup (without k l).*1.
Proof.
  induction l as [|[k' v'] l IH]; [done|]. simpl. intros [Hn Hnd]%NoDup_cons.
  unfold without in *. rewrite filter_cons. simpl. case_decide; simpl; auto.
  apply NoDup_cons. split; [|auto]. intros Hin. apply Hn.
  by apply (without_keys k) in Hin as [_ ?].
Qed.

Lemma find_None k l : find k l = None ↔ k ∉ l.*1.
Proof.
  unfold find, only. induction l as [|[k' v'] l IH]; simpl.
  - split; [intros _; apply not_elem_of_nil|done].
  - rewrite filter_cons. simpl. rewrite not_elem_of_cons. case_decide; simpl.
    + split; [done|]. intros [? _]. congruence.
    + rewrite IH. intuition congruence.
Qed.

Lemma find_cons k k' v' l :
  find k ((k', v') :: l) = if decide (k' = k) then Some v' else find k l.
Proof. unfold find, only. rewrite filter_cons. simpl. by case_decide. Qed.

Lemma find_Some k v l : NoDup l.*1 → find k l = Some v ↔ (k, v) ∈ l.
Proof.
  induction l as [|[k' v'] l IH]; simpl.
  - intros _. split; [done|]. by intros ?%elem_of_nil.
  - intros [Hn Hnd]%NoDup_cons. rewrite find_cons, elem_of_cons. case_decide.
    + subst. split; [intros; simplify_eq; by left|].
      intros [?|Hin]; [by simplify_eq|]. exfalso. apply Hn.
      apply list_elem_of_fmap. by exists (k, v).
    + rewrite IH by done. split; [by right|]. intros [?|?]; [by simplify_eq|done].
Qed.

Lemma only_find k v l : NoDup l.*1 → find k l = Some v → only k l = [(k, v)].
Proof.
  induction l as [|[k' v'] l IH]; simpl; [done|].
  intros [Hn Hnd]%NoDup_cons. rewrite find_cons. unfold only in *.
  rewrite filter_cons. simpl. case_decide.
  - intros ?; simplify_eq. f_equal. by apply only_notin.
  - auto.
Qed.

Lemma views_nodup m es :
  NoDup es →
  (∀ e e' en en', e ∈ es → e' ∈ es → m !! e = Some en → m !! e' = Some en' →
     key en = key en' → e = e') →
  NoDup (views m es).*1.
Proof.
  induction es as [|e es IH]; intros Hnd Hinj; [apply NoDup_nil_2|].
  apply NoDup_cons in Hnd as [Hn Hnd].
  assert (NoDup (views m es).*1) as IH'.
  { apply IH; [done|]. intros. eapply Hinj; eauto using list_elem_of_further. }
  unfold views in *. simpl. destruct (m !! e) as [en|] eqn:Hen; simpl; [|done].
  apply NoDup_cons. split; [|done].
  intros (e' & en' & He' & Hen' & Hk)%views_keys.
  apply Hn. replace e with e'; [done|].
  eapply Hinj; eauto using list_elem_of_further, list_elem_of_here.
Qed.

Lemma unlink_elem_of e x es : x ∈ unlink e es ↔ x ≠ e ∧ x ∈ es.
Proof. unfold unlink. by rewrite list_elem_of_filter. Qed.

Lemma unlink_notin e es : e ∉ es → unlink e es = es.
Proof.
  induction es as [|x es IH]; [done|]. intros [? ?]%not_elem_of_cons.
  unfold unlink in *. rewrite filter_cons, decide_True by done. f_equal; auto.
Qed.

Lemma unlink_head e es : e ∉ es → unlink e (e :: es) = es.
Proof.
  intros Hn. unfold unlink. rewrite filter_cons, decide_False by auto.
  by apply unlink_notin.
Qed.

Lemma unlink_nodup e es : NoDup es → NoDup (unlink e es).
Proof. apply NoDup_filter. Qed.

Lemma unlink_last e es : NoDup es → last es = Some e → unlink e es = removelast es.
Proof.
  intros Hnd [es' ->]%last_Some. rewrite removelast_last.
  apply NoDup_app in Hnd as (_ & Hd & _).
  unfold unlink. rewrite filter_app, filter_cons, filter_nil, decide_False by auto.
  rewrite app_nil_r. apply unlink_notin. intros Hin. apply (Hd _ Hin). left.
Qed.

Lemma views_snoc m es e en :
  m !! e = Some en → views m (es ++ [e]) = views m es ++ [pair_of en].
Proof. intros He. rewrite views_app. f_equal. by apply views_cons_Some. Qed.

Lemma MoveToFront_spec (li : List Key Value Time) e :
  NoDup (order li) → e ∈ order li →
  MoveToFront e li = mkList (elements li) (fresh li) (e :: unlink e (order li)).
Proof.
  intros Hnd Hin. unfold MoveToFront.
  rewrite (bool_decide_eq_false_2 (e ∉ order li)) by auto. simpl.
  case_bool_decide as Hh; [|done].
  destruct li as [m n [|x es]]; simplify_eq/=.
  apply NoDup_cons in Hnd as [? ?]. by rewrite unlink_head.
Qed.

Lemma Remove_spec (li : List Key Value Time) e :
  Remove e li = mkList (elements li) (fresh li) (unlink e (order li)).
Proof.
  unfold Remove. case_bool_decide; [done|].
  rewrite unlink_notin by done. by destruct li.
Qed.
End Lists.

Section Refinement.
Context `{Countable Key} {Value Time Event : Type}.
Implicit Types (c : localCache Key Value Time Event) (k : Key) (v : Value).

Lemma wf_linked c e :
  wf c → e ∈ order (entries c) →
  ∃ en, elements (entries c) !! e = Some en ∧ cache c !! key en = Some e.
Proof.
  intros Hwf He. destruct (wf_alloc c Hwf e He) as [en Hen]. exists en.
  split; [done|]. apply (wf_index c Hwf). by rewrite Hen.
Qed.

Lemma wf_indexed c k e :
  wf c → cache c !! k = Some e →
  e ∈ order (entries c) ∧ ∃ en, elements (entries c) !! e = Some en ∧ key en = k.
Proof.
  intros Hwf [He Hk]%(wf_index c Hwf). split; [done|].
  destruct (elements (entries c) !! e) as [en|]; simplify_eq/=. eauto.
Qed.

Lemma wf_key_inj c e e' en en' :
  wf c → e ∈ order (entries c) → e' ∈ order (entries c) →
  elements (entries c) !! e = Some en → elements (entries c) !! e' = Some en' →
  key en = key en' → e = e'.
Proof.
  intros Hwf He He' Hen Hen' Hk.
  assert (cache c !! key en = Some e) by (apply (wf_index c Hwf); by rewrite Hen).
  assert (cache c !! key en = Some e')
    by (apply (wf_index c Hwf); rewrite Hen'; simpl; by rewrite Hk).
  congruence.
Qed.

(** Each linked element holds the key its index slot has, and no other. *)
Lemma wf_rep c k e :
  wf c → cache c !! k = Some e →
  ∀ e', e' ∈ order (entries c) →
    ∃ en, elements (entries c) !! e' = Some en ∧ (key en = k ↔ e' = e).
Proof.
  intros Hwf Hk e' He'. destruct (wf_linked c e' Hwf He') as (en & Hen & Hc).
  exists en. split; [done|]. split.
  - intros <-. congruence.
  - intros ->. apply (wf_indexed c k e Hwf) in Hk as (_ & en' & ? & ?). congruence.
Qed.

Lemma wf_rep_None c k :
  wf c → cache c !! k = None →
  ∀ e', e' ∈ order (entries c) →
    ∃ en, elements (entries c) !! e' = Some en ∧ key en ≠ k.
Proof.
  intros Hwf Hk e' He'. destruct (wf_linked c e' Hwf He') as (en & Hen & Hc).
  exists en. split; [done|]. intros <-. congruence.
Qed.

Lemma wf_view_keys c k :
  wf c → k ∈ (view (entries c)).*1 ↔ is_Some (cache c !! k).
Proof.
  intros Hwf. unfold view. rewrite views_keys. split.
  - intros (e & en & He & Hen & <-). exists e. apply (wf_index c Hwf). by rewrite Hen.
  - intros [e (He & en & Hen & Hk)%(wf_indexed c k e Hwf)]. eauto.
Qed.

Lemma wf_view_nodup c : wf c → NoDup (view (entries c)).*1.
Proof.
  intros Hwf. apply views_nodup; [apply (wf_nodup c Hwf)|].
  intros. by eapply wf_key_inj.
Qed.

Lemma wf_view_length c :
  wf c → length (view (entries c)) = length (order (entries c)).
Proof. intros Hwf. apply views_length, (wf_alloc c Hwf). Qed.

Lemma wf_find_None c k : wf c → cache c !! k = None → find k (view (entries c)) = None.
Proof.
  intros Hwf Hk. apply find_None. rewrite wf_view_keys by done.
  rewrite Hk. by intros [? ?].
Qed.

Lemma wf_find_Some c k e en :
  wf c → cache c !! k = Some e → elements (entries c) !! e = Some en →
  find k (view (entries c)) = Some (value en).
Proof.
  intros Hwf Hk Hen. apply find_Some; [by apply wf_view_nodup|].
  destruct (wf_indexed c k e Hwf Hk) as (He & en' & ? & <-). simplify_eq.
  apply list_elem_of_omap. exists e. by rewrite Hen.
Qed.

Lemma wf_contents c k : wf c → contents c !! k = find k (view (entries c)).
Proof.
  intros Hwf. unfold contents. rewrite lookup_omap.
  destruct (cache c !! k) as [e|] eqn:Hk; simpl.
  - destruct (wf_indexed c k e Hwf Hk) as (_ & en & Hen & _).
    rewrite Hen. simpl. symmetry. by eapply wf_find_Some.
  - symmetry. by apply wf_find_None.
Qed.

Lemma wf_touch c k e en en' :
  wf c → cache c !! k = Some e → elements (entries c) !! e = Some en → key en' = k →
  let li := mkList (<[e := en']> (elements (entries c))) (fresh (entries c))
                   (order (entries c)) in
  wf (set_entries (MoveToFront e li) c) ∧
  view (MoveToFront e li) = pair_of en' :: without k (view (entries c)).
Proof.
  intros Hwf Hk Hen <- li.
  destruct (wf_indexed c _ e Hwf Hk) as (He & en0 & Hen0 & Hk0).
  rewrite Hen in Hen0. injection Hen0 as <-.
  pose proof (wf_nodup c Hwf) as Hnd.
  rewrite MoveToFront_spec by done. unfold li; clear li. simpl. split.
  - constructor; simpl.
    + apply NoDup_cons. split; [|by apply unlink_nodup].
      rewrite unlink_elem_of. tauto.
    + intros x Hx. apply lookup_insert_is_Some'. right. apply (wf_alloc c Hwf).
      apply elem_of_cons in Hx as [->|[_ ?]%unlink_elem_of]; done.
    + intros x [->|Hx]%lookup_insert_is_Some'; apply (wf_fresh c Hwf); eauto.
    + intros k' x. rewrite (wf_index c Hwf), elem_of_cons, unlink_elem_of.
      destruct (decide (x = e)) as [->|Hne].
      * rewrite lookup_insert_eq, Hen. simpl. rewrite Hk0. tauto.
      * rewrite lookup_insert_ne by done. tauto.
  - unfold view. cbn [elements order]. erewrite views_cons_Some by apply lookup_insert_eq.
    f_equal. rewrite views_insert_notin by (rewrite unlink_elem_of; tauto).
    apply views_unlink. intros e' He'. by apply (wf_rep c).
Qed.

Lemma wf_push c k (en : entry Key Value Time) :
  wf c → cache c !! k = None → key en = k →
  let c1 := set_cache (<[k := fresh (entries c)]> (cache c))
              (set_entries (PushFront en (entries c)).1 c) in
  wf c1 ∧ view (entries c1) = pair_of en :: view (entries c).
Proof.
  intros Hwf Hk Hkey c1.
  assert (fresh (entries c) ∉ order (entries c)) as Hfr.
  { intros Hin. apply (wf_alloc c Hwf), (wf_fresh c Hwf) in Hin. lia. }
  unfold c1; clear c1. simpl. split.
  - constructor; simpl.
    + apply NoDup_cons. split; [done|apply (wf_nodup c Hwf)].
    + intros x Hx. apply lookup_insert_is_Some'.
      apply elem_of_cons in Hx as [->|Hx]; [by left|]. right. by apply (wf_alloc c Hwf).
    + intros x [->|Hx]%lookup_insert_is_Some'; [lia|].
      apply (wf_fresh c Hwf) in Hx. lia.
    + intros k' x. rewrite elem_of_cons.
      destruct (decide (x = fresh (entries c))) as [->|Hne].
      * rewrite lookup_insert_eq. simpl. rewrite Hkey.
        destruct (decide (k' = k)) as [->|Hnk].
        -- rewrite lookup_insert_eq. tauto.
        -- rewrite lookup_insert_ne by done. rewrite (wf_index c Hwf). intuition congruence.
      * rewrite (lookup_insert_ne (elements _)) by done.
        destruct (decide (k' = k)) as [->|Hnk].
        -- rewrite lookup_insert_eq. split; [intuition congruence|].
           intros [[?|Hx] Hkx]; [done|].
           assert (cache c !! k = Some x) by (by apply (wf_index c Hwf)). congruence.
        -- rewrite lookup_insert_ne by done. rewrite (wf_index c Hwf). tauto.
  - unfold view. cbn [elements order entries set_cache set_entries PushFront fst].
    erewrite views_cons_Some by apply lookup_insert_eq.
    f_equal. by apply views_insert_notin.
Qed.

Lemma removeOldest_refines c :
  wf c → order (entries c) ≠ [] →
  ∃ c' en, removeOldest c = Some (c', Some en) ∧ wf c' ∧
    view (entries c') = removelast (view (entries c)) ∧
    last (view (entries c)) = Some (pair_of en) ∧
    maximumSize c' = maximumSize c ∧ onRemoval c' = onRemoval c.
Proof.
  intros Hwf Hne. unfold removeOldest, Back.
  destruct (last (order (entries c))) as [e|] eqn:Hlast; [|by apply last_None in Hlast].
  pose proof (wf_nodup c Hwf) as Hnd.
  rewrite Remove_spec, (unlink_last _ _ Hnd Hlast).
  apply last_Some in Hlast as [es Hes].
  assert (e ∈ order (entries c)) as He by (rewrite Hes; set_solver).
  destruct (wf_linked c e Hwf He) as (en & Hen & Hce).
  unfold getValue. simpl. rewrite Hen. simpl. eexists _, en. split; [done|].
  rewrite Hes, removelast_last in *.
  apply NoDup_app in Hnd as (Hnd & Hd & _).
  assert (e ∉ es) as Hees by (intros Hin; apply (Hd _ Hin); left).
  split; [|split; [|split]]; simpl.
  - constructor; simpl.
    + done.
    + intros x Hx. apply (wf_alloc c Hwf). rewrite Hes. apply elem_of_app. by left.
    + apply (wf_fresh c Hwf).
    + intros k' x. destruct (decide (k' = key en)) as [->|Hnk].
      * rewrite lookup_delete_eq. split; [done|]. intros [Hx Hkx].
        assert (cache c !! key en = Some x)
          by (apply (wf_index c Hwf); rewrite Hes; split; [apply elem_of_app; by left|done]).
        congruence.
      * rewrite lookup_delete_ne by done. rewrite (wf_index c Hwf), Hes.
        rewrite elem_of_app, list_elem_of_singleton. split; [|tauto].
        intros [[?| ->] Hkx]; [done|]. rewrite Hen in Hkx. set_solver.
  - unfold view. cbn [elements order entries set_cache set_entries].
    rewrite Hes, (views_snoc _ _ _ _ Hen). by rewrite removelast_last.
  - unfold view. rewrite Hes, (views_snoc _ _ _ _ Hen). apply last_snoc.
  - done.
Qed.

Lemma fire_nil (f : option (OnRemoval Key Value Event)) : fire f [] = [].
Proof. by destruct f. Qed.

Lemma fire_one (f : OnRemoval Key Value Event) k v : fire (Some f) [(k, v)] = f k v.
Proof. simpl. apply app_nil_r. Qed.

Lemma fire_app (f : option (OnRemoval Key Value Event)) r1 r2 :
  fire f (r1 ++ r2) = fire f r1 ++ fire f r2.
Proof. destruct f; simpl; [|done]. by rewrite fmap_app, concat_app. Qed.

Lemma GetIfPresent_refines c k now :
  wf c →
  ∃ c', GetIfPresent c k now = Some (c', find k (view (entries c))) ∧ wf c' ∧
    view (entries c') = lru_get k (view (entries c)) ∧
    maximumSize c' = maximumSize c ∧ onRemoval c' = onRemoval c ∧
    cache c' = cache c.
Proof.
  intros Hwf. unfold GetIfPresent, lru_get.
  destruct (cache c !! k) as [e|] eqn:Hk.
  - destruct (wf_indexed c k e Hwf Hk) as (He & en & Hen & Hkey).
    unfold getValue, setValue. rewrite Hen. simpl.
    rewrite (wf_find_Some c k e en Hwf Hk Hen).
    destruct (wf_touch c k e en (mkEntry (key en) (value en) now) Hwf Hk Hen Hkey)
      as [Hwf' Hview].
    eexists. split; [done|]. split; [done|]. split; [|done].
    simpl. rewrite Hview. unfold pair_of. simpl. by rewrite Hkey.
  - rewrite (wf_find_None c k Hwf Hk). by exists c.
Qed.

Lemma Put_refines c k v now :
  wf c →
  ∃ c', Put c k v now
          = Some (c', fire (onRemoval c)
                        (lru_put (maximumSize c) k v (view (entries c))).2) ∧
    wf c' ∧
    view (entries c') = (lru_put (maximumSize c) k v (view (entries c))).1 ∧
    maximumSize c' = maximumSize c ∧ onRemoval c' = onRemoval c.
Proof.
  intros Hwf. unfold Put, lru_put.
  destruct (cache c !! k) as [e|] eqn:Hk.
  - destruct (wf_indexed c k e Hwf Hk) as (He & en & Hen & Hkey).
    unfold getValue, setValue. rewrite Hen. simpl.
    rewrite (wf_find_Some c k e en Hwf Hk Hen). simpl. rewrite fire_nil.
    destruct (wf_touch c k e en (mkEntry (key en) v now) Hwf Hk Hen Hkey)
      as [Hwf' Hview].
    eexists. split; [done|]. split; [done|]. split; [|done].
    simpl. rewrite Hview. unfold pair_of. simpl. by rewrite Hkey.
  - rewrite (wf_find_None c k Hwf Hk).
    destruct (wf_push c k (mkEntry k v now) Hwf Hk eq_refl) as [Hwf1 Hview1].
    cbn [PushFront fst] in Hwf1, Hview1. cbn [PushFront].
    set (c1 := set_cache _ _) in *.
    replace (Len (entries c1)) with (Z.of_nat (S (length (view (entries c)))))
      by (rewrite (wf_view_length c Hwf); done).
    change (maximumSize c1) with (maximumSize c).
    destruct (bool_decide (maximumSize c > 0)%Z
              && bool_decide (Z.of_nat (S (length (view (entries c)))) > maximumSize c)%Z).
    + destruct (removeOldest_refines c1 Hwf1) as (c' & en & -> & Hwf' & Hv & Hl & HM & Hf);
        [done|].
      rewrite Hview1 in Hv, Hl. change (pair_of (mkEntry k v now)) with (k, v) in *.
      cbn [mbind option_bind]. rewrite Hf, Hl. change (onRemoval c1) with (onRemoval c).
      exists c'. split; [|done].
      destruct (onRemoval c) as [f|]; [|done].
      simpl. by rewrite app_nil_r.
    + cbn [mbind option_bind snd fst]. rewrite fire_nil. exists c1. split; [|done].
      change (onRemoval c1) with (onRemoval c). by destruct (onRemoval c).
Qed.

Lemma Invalidate_refines c k :
  wf c →
  ∃ c', Invalidate c k = Some (c', fire (onRemoval c) (only k (view (entries c)))) ∧
    wf c' ∧ view (entries c') = without k (view (entries c)) ∧
    maximumSize c' = maximumSize c ∧ onRemoval c' = onRemoval c.
Proof.
  intros Hwf. unfold Invalidate.
  destruct (cache c !! k) as [e|] eqn:Hk.
  - destruct (wf_indexed c k e Hwf Hk) as (He & en & Hen & Hkey).
    rewrite Remove_spec.
    exists (set_cache (delete k (cache c))
              (set_entries (mkList (elements (entries c)) (fresh (entries c))
                                   (unlink e (order (entries c)))) c)).
    split; [|split; [|split; [|done]]].
    + rewrite (only_find k (value en));
        [|by apply wf_view_nodup|by eapply wf_find_Some].
      cbn [onRemoval set_cache set_entries entries getValue elements].
      destruct (onRemoval c) as [f|]; [|done]. unfold getValue. simpl.
      rewrite Hen. simpl. by rewrite app_nil_r, Hkey.
    + pose proof (wf_nodup c Hwf) as Hnd. constructor; simpl.
      * by apply unlink_nodup.
      * intros x [_ Hx]%unlink_elem_of. by apply (wf_alloc c Hwf).
      * apply (wf_fresh c Hwf).
      * intros k' x. rewrite unlink_elem_of.
        destruct (decide (k' = k)) as [->|Hnk].
        -- rewrite lookup_delete_eq. split; [done|]. intros [[Hne Hx] Hkx].
           assert (cache c !! k = Some x) by (by apply (wf_index c Hwf)). congruence.
        -- rewrite lookup_delete_ne by done. rewrite (wf_index c Hwf).
           split; [|tauto]. intros [Hx Hkx]. repeat split; [|done..].
           intros ->. rewrite Hen in Hkx. simpl in Hkx. congruence.
    + unfold view. cbn [elements order entries set_cache set_entries].
      apply views_unlink. by apply (wf_rep c).
  - rewrite only_notin, without_notin, fire_nil;
      [by exists c|by apply find_None, wf_find_None..].
Qed.

Lemma mapM_listener (f : OnRemoval Key Value Event)
    (m : gmap nat (entry Key Value Time)) (L : list (Key * nat)) :
  (∀ kel, kel ∈ L → is_Some (m !! kel.2)) →
  mapM (λ kel : Key * nat, en ← m !! kel.2; Some (f (key en) (value en))) L
    = Some ((λ kv, f kv.1 kv.2) <$> views m L.*2).
Proof.
  induction L as [|[k e] L IH]; intros Ha; [done|].
  destruct (Ha (k, e)) as [en Hen]; [left|]. simpl in Hen.
  cbn [mapM fmap list_fmap snd]. rewrite Hen. cbn [mbind option_bind].
  rewrite IH by (intros; apply Ha; by right).
  by rewrite (views_cons_Some _ _ _ _ Hen).
Qed.

Lemma wf_index_perm c : wf c → (map_to_list (cache c)).*2 ≡ₚ order (entries c).
Proof.
  intros Hwf. apply NoDup_Permutation.
  - apply NoDup_fmap_2_strong; [|apply NoDup_map_to_list].
    intros [k1 e1] [k2 e2] H1%elem_of_map_to_list H2%elem_of_map_to_list ?.
    simplify_eq/=.
    apply (wf_indexed c _ _ Hwf) in H1 as (_ & en1 & ? & ?).
    apply (wf_indexed c _ _ Hwf) in H2 as (_ & en2 & ? & ?). congruence.
  - apply (wf_nodup c Hwf).
  - intros e. rewrite list_elem_of_fmap. split.
    + intros ([k e'] & -> & Hin%elem_of_map_to_list).
      by apply (wf_indexed c _ _ Hwf) in Hin as [? _].
    + intros (en & Hen & Hc)%(wf_linked c e Hwf). exists (key en, e).
      split; [done|]. by apply elem_of_map_to_list.
Qed.

Lemma InvalidateAll_refines c :
  wf c →
  ∃ c' rem, InvalidateAll c = Some (c', fire (onRemoval c) rem) ∧
    rem ≡ₚ view (entries c) ∧
    wf c' ∧ view (entries c') = [] ∧ cache c' = ∅ ∧
    maximumSize c' = maximumSize c ∧ onRemoval c' = onRemoval c.
Proof.
  intros Hwf. unfold InvalidateAll, getValue. simpl.
  exists (set_cache ∅ (set_entries (Init (entries c)) c)),
         (views (elements (entries c)) (map_to_list (cache c)).*2).
  split; [|split; [|split]].
  - destruct (onRemoval c) as [f|]; [|done]. rewrite mapM_listener; [done|].
    intros [k e] (_ & en & Hen & _)%elem_of_map_to_list%(wf_indexed c _ _ Hwf).
    simpl. eauto.
  - unfold view, views. by rewrite (wf_index_perm c Hwf).
  - constructor; simpl.
    + apply NoDup_nil_2.
    + by intros e ?%elem_of_nil.
    + apply (wf_fresh c Hwf).
    + intros k e. rewrite lookup_empty, elem_of_nil. intuition congruence.
  - done.
Qed.

Lemma exec_refines c op :
  wf c →
  ∃ c' rem, exec c op = Some (c', fire (onRemoval c) rem) ∧
    rem ≡ₚ (lru_exec (maximumSize c) op (view (entries c))).2 ∧
    wf c' ∧
    view (entries c') = (lru_exec (maximumSize c) op (view (entries c))).1 ∧
    maximumSize c' = maximumSize c ∧ onRemoval c' = onRemoval c.
Proof.
  intros Hwf. destruct op as [k v now|k now|k|]; simpl.
  - destruct (Put_refines c k v now Hwf) as (c' & -> & ? & ? & ? & ?). eauto 10.
  - destruct (GetIfPresent_refines c k now Hwf) as (c' & -> & ? & ? & ? & ? & ?).
    exists c', []. by rewrite fire_nil.
  - destruct (Invalidate_refines c k Hwf) as (c' & -> & ? & ? & ? & ?). eauto 10.
  - destruct (InvalidateAll_refines c Hwf) as (c' & rem & -> & ? & ? & ? & ? & ? & ?).
    by exists c', rem.
Qed.

Lemma run_refines ops : ∀ c,
  wf c →
  ∃ c' rem, run c ops = Some (c', fire (onRemoval c) rem) ∧
    rem ≡ₚ (lru_run (maximumSize c) ops (view (entries c))).2 ∧
    wf c' ∧
    view (entries c') = (lru_run (maximumSize c) ops (view (entries c))).1 ∧
    maximumSize c' = maximumSize c ∧ onRemoval c' = onRemoval c.
Proof.
  induction ops as [|op ops IH]; intros c Hwf.
  - exists c, []. by rewrite fire_nil.
  - destruct (exec_refines c op Hwf) as (c1 & r1 & He & Hr1 & Hwf1 & Hv1 & HM1 & Hf1).
    destruct (IH c1 Hwf1) as (c2 & r2 & Hr & Hr2 & Hwf2 & Hv2 & HM2 & Hf2).
    cbn [run lru_run]. rewrite He. cbn [mbind option_bind]. rewrite Hr.
    cbn [mbind option_bind]. rewrite Hv1, HM1, Hf1 in *.
    destruct (lru_exec _ op _) as [l1 r1'].
    destruct (lru_run _ ops _) as [l2 r2']. simpl in *.
    exists c2, (r1 ++ r2). rewrite fire_app.
    split; [done|]. split; [by rewrite Hr1, Hr2|]. by rewrite HM2, Hf2.
Qed.

Lemma wf_newLocalCache : wf (newLocalCache : localCache Key Value Time Event).
Proof.
  constructor; simpl.
  - apply NoDup_nil_2.
  - by intros e ?%elem_of_nil.
  - intros e [? ?]. by rewrite lookup_empty in *.
  - intros k e. rewrite lookup_empty, elem_of_nil. intuition congruence.
Qed.

Lemma New_fields (opts : list (Option Key Value Event)) :
  cache (New (Time:=Time) opts) = ∅ ∧ entries (New (Time:=Time) opts) = Init zeroList.
Proof.
  unfold New.
  assert (∀ c : localCache Key Value Time Event,
            cache (foldl (λ c opt, applyOption opt c) c opts) = cache c ∧
            entries (foldl (λ c opt, applyOption opt c) c opts) = entries c) as Hgen.
  { induction opts as [|opt opts IH]; intros c; [done|]. simpl.
    destruct (IH (applyOption opt c)) as [-> ->]. by destruct opt. }
  apply Hgen.
Qed.

Lemma wf_fields c c' :
  cache c' = cache c → entries c' = entries c → wf c → wf c'.
Proof. intros Hc He [? ? ? ?]. constructor; by rewrite ?Hc, ?He. Qed.

Lemma wf_New (opts : list (Option Key Value Event)) : wf (New (Time:=Time) opts).
Proof.
  destruct (New_fields opts) as [Hc He].
  by apply (wf_fields newLocalCache), wf_newLocalCache.
Qed.

Lemma view_New (opts : list (Option Key Value Event)) :
  view (entries (New (Time:=Time) opts)) = [].
Proof. destruct (New_fields opts) as [_ ->]. done. Qed.
End Refinement.

Section Lru.
Context `{Countable Key} {Value Time : Type}.
Implicit Types (l r : list (Key * Value)) (k : Key) (v : Value) (M : Z)
  (op : call Key Value Time) (ops : list (call Key Value Time)).

Lemma lru_put_cases M k v l :
  (∃ v0, find k l = Some v0 ∧ lru_put M k v l = ((k, v) :: without k l, [])) ∨
  (find k l = None ∧ (M ≤ 0 ∨ Z.of_nat (S (length l)) ≤ M)%Z ∧
     lru_put M k v l = ((k, v) :: l, [])) ∨
  (find k l = None ∧ (0 < M < Z.of_nat (S (length l)))%Z ∧
     ∃ l' x, l = l' ++ [x] ∧ lru_put M k v l = ((k, v) :: l', [x])).
Proof.
  unfold lru_put. destruct (find k l) as [v0|]; [left; eauto|right].
  case_bool_decide as HM; cbn [andb]; [|left; split; [done|]; split; [lia|done]].
  case_bool_decide as HL; cbn [andb]; [|left; split; [done|]; split; [lia|done]].
  right. split; [done|]. split; [lia|].
  destruct (exists_last (l:=l)) as (l' & x & ->).
  { intros ->. simpl in *. lia. }
  exists l', x. split; [done|].
  rewrite app_comm_cons, removelast_last, last_snoc. done.
Qed.

Lemma without_length k l : length (without k l) ≤ length l.
Proof. apply length_filter. Qed.

Lemma without_length_find k v l :
  find k l = Some v → S (length (without k l)) ≤ length l.
Proof.
  induction l as [|[k' v'] l IH]; [done|]. rewrite find_cons. unfold without in *.
  rewrite filter_cons. simpl. case_decide.
  - intros _. rewrite decide_False by tauto. pose proof (length_filter (λ kv, kv.1 ≠ k) l). lia.
  - intros Hf. rewrite decide_True by done. simpl. apply IH in Hf. lia.
Qed.

Lemma lru_exec_length M op l :
  (0 < M)%Z → (Z.of_nat (length l) ≤ M)%Z →
  (Z.of_nat (length (lru_exec M op l).1) ≤ M)%Z.
Proof.
  intros HM Hl. destruct op as [k v now|k now|k|]; simpl.
  - destruct (lru_put_cases M k v l)
      as [(v0 & Hf & ->)|[(Hf & Hc & ->)|(Hf & Hc & l' & x & -> & ->)]]; simpl.
    + apply without_length_find in Hf. lia.
    + lia.
    + rewrite length_app in *. simpl in *. lia.
  - unfold lru_get. destruct (find k l) as [v0|] eqn:Hf; [|done].
    apply without_length_find in Hf. simpl. lia.
  - pose proof (without_length k l). lia.
  - lia.
Qed.

Lemma lru_run_length M ops : ∀ l,
  (0 < M)%Z → (Z.of_nat (length l) ≤ M)%Z →
  (Z.of_nat (length (lru_run M ops l).1) ≤ M)%Z.
Proof.
  induction ops as [|op ops IH]; intros l HM Hl; [done|]. simpl.
  pose proof (lru_exec_length M op l HM Hl) as H1.
  destruct (lru_exec M op l) as [l1 r1]. specialize (IH l1 HM H1).
  by destruct (lru_run M ops l1).
Qed.

Lemma without_elem_of k kv l : kv ∈ without k l ↔ kv.1 ≠ k ∧ kv ∈ l.
Proof. unfold without. by rewrite list_elem_of_filter. Qed.

Lemma only_elem_of k kv l : kv ∈ only k l ↔ kv.1 = k ∧ kv ∈ l.
Proof. unfold only. by rewrite list_elem_of_filter. Qed.

Lemma keys_elem_of k l : k ∈ l.*1 ↔ ∃ v, (k, v) ∈ l.
Proof.
  rewrite list_elem_of_fmap. split.
  - intros ([k' v] & -> & ?). by exists v.
  - intros [v ?]. by exists (k, v).
Qed.

Lemma NoDup_keys l : NoDup l.*1 → NoDup l.
Proof. apply NoDup_fmap_1. Qed.

Lemma lru_get_keys k k' l : k' ∈ (lru_get k l).*1 ↔ k' ∈ l.*1.
Proof.
  unfold lru_get. destruct (find k l) as [v|] eqn:Hf; [|done].
  rewrite fmap_cons, elem_of_cons, without_keys. simpl.
  assert (k ∈ l.*1).
  { apply dec_stable. intros Hn%find_None. congruence. }
  destruct (decide (k' = k)); intuition congruence.
Qed.

Lemma lru_exec_nodup M op l : NoDup l.*1 → NoDup (lru_exec M op l).1.*1.
Proof.
  intros Hnd.
  assert (∀ k v, NoDup ((k, v) :: without k l).*1) as Hhit.
  { intros k v. rewrite fmap_cons. apply NoDup_cons. split; [|by apply without_nodup].
    rewrite without_keys. tauto. }
  destruct op as [k v now|k now|k|]; simpl.
  - destruct (lru_put_cases M k v l)
      as [(v0 & Hf & ->)|[(Hf & Hc & ->)|(Hf & Hc & l' & x & -> & ->)]]; simpl.
    + apply (Hhit k v).
    + apply NoDup_cons. split; [by apply find_None|done].
    + apply find_None in Hf. rewrite fmap_app in *.
      apply NoDup_app in Hnd as (? & _ & _). apply NoDup_cons. split; [|done].
      intros Hin. apply Hf, elem_of_app. by left.
  - unfold lru_get. destruct (find k l) as [v0|]; [apply (Hhit k v0)|done].
  - by apply without_nodup.
  - apply NoDup_nil_2.
Qed.

(** What leaves the list in one call: each pair once, and exactly the
    pairs whose key is gone afterwards. *)
Lemma lru_exec_removed M op l :
  NoDup l.*1 →
  NoDup (lru_exec M op l).2 ∧
  ∀ k v, (k, v) ∈ (lru_exec M op l).2 ↔ (k, v) ∈ l ∧ k ∉ (lru_exec M op l).1.*1.
Proof.
  intros Hnd.
  assert (∀ k k' v v', (k', v') ∈ l → k' ∈ ((k, v) :: without k l).*1) as Hhit.
  { intros k k' v v' Hin. rewrite fmap_cons, elem_of_cons, without_keys. simpl.
    destruct (decide (k' = k)); [by left|right]. split; [done|].
    apply keys_elem_of. eauto. }
  destruct op as [k v now|k now|k|]; simpl.
  - destruct (lru_put_cases M k v l)
      as [(v0 & Hf & ->)|[(Hf & Hc & ->)|(Hf & Hc & l' & x & -> & ->)]]; simpl.
    + split; [apply NoDup_nil_2|]. intros k' v'. rewrite elem_of_nil.
      split; [done|]. intros [Hin Hn]. apply Hn. exact (Hhit k k' v v' Hin).
    + split; [apply NoDup_nil_2|]. intros k' v'.
      rewrite elem_of_nil, not_elem_of_cons, keys_elem_of.
      split; [done|]. intros [Hin [_ Hn]]. apply Hn. eauto.
    + split; [apply NoDup_singleton|]. intros k' v'.
      apply find_None in Hf. rewrite fmap_app in *.
      apply NoDup_app in Hnd as (_ & Hd & _).
      rewrite list_elem_of_singleton, elem_of_app, list_elem_of_singleton,
        not_elem_of_cons. split.
      * intros <-. split; [by right|]. split.
        -- intros ->. apply Hf, elem_of_app. right. simpl. left.
        -- intros Hin. apply (Hd _ Hin). simpl. left.
      * intros [[Hin|?] [_ Hn]]; [|done]. exfalso. apply Hn, keys_elem_of. eauto.
  - split; [apply NoDup_nil_2|]. intros k' v'. rewrite elem_of_nil, lru_get_keys.
    rewrite keys_elem_of. split; [done|]. intros [Hin Hn]. apply Hn. eauto.
  - split; [by apply NoDup_filter, NoDup_keys|]. intros k' v'.
    rewrite only_elem_of, without_keys, keys_elem_of. simpl.
    split.
    + intros [-> Hin]. split; [done|]. by intros [? _].
    + intros [Hin Hn]. split; [|done]. apply dec_stable. intros Hne. apply Hn. eauto.
  - split; [by apply NoDup_keys|]. intros k' v'. simpl. rewrite elem_of_nil. tauto.
Qed.

Lemma lru_exec_absent M op k l :
  is_put_of k op = false → k ∉ l.*1 → k ∉ (lru_exec M op l).1.*1.
Proof.
  intros Hop Hk. destruct op as [k0 v now|k0 now|k0|]; simpl in *.
  - apply bool_decide_eq_false in Hop.
    destruct (lru_put_cases M k0 v l)
      as [(v0 & Hf & ->)|[(Hf & Hc & ->)|(Hf & Hc & l' & x & -> & ->)]]; simpl.
    + rewrite not_elem_of_cons, without_keys. intuition congruence.
    + rewrite not_elem_of_cons. intuition congruence.
    + rewrite not_elem_of_cons. split; [intuition congruence|].
      intros Hin. apply Hk. rewrite fmap_app, elem_of_app. by left.
  - by rewrite lru_get_keys.
  - rewrite without_keys. tauto.
  - apply not_elem_of_nil.
Qed.

Lemma lru_run_absent M ops k : ∀ l,
  forallb (λ op, negb (is_put_of k op)) ops = true →
  k ∉ l.*1 → k ∉ (lru_run M ops l).1.*1.
Proof.
  induction ops as [|op ops IH]; intros l Hops Hk; [done|]. simpl in *.
  apply andb_prop in Hops as [Hop%negb_true_iff Hops].
  pose proof (lru_exec_absent M op k l Hop Hk) as H1.
  destruct (lru_exec M op l) as [l1 r1]. specialize (IH l1 Hops H1).
  by destruct (lru_run M ops l1).
Qed.

Lemma lru_run_nodup M ops : ∀ l, NoDup l.*1 → NoDup (lru_run M ops l).1.*1.
Proof.
  induction ops as [|op ops IH]; intros l Hnd; [done|]. simpl.
  pose proof (lru_exec_nodup M op l Hnd) as H1.
  destruct (lru_exec M op l) as [l1 r1]. specialize (IH l1 H1).
  by destruct (lru_run M ops l1).
Qed.

Lemma lru_run_app M ops1 ops2 l :
  lru_run M (ops1 ++ ops2) l =
    let '(l1, r1) := lru_run M ops1 l in
    let '(l2, r2) := lru_run M ops2 l1 in
    (l2, r1 ++ r2).
Proof.
  revert l. induction ops1 as [|op ops1 IH]; intros l; simpl.
  - by destruct (lru_run M ops2 l).
  - destruct (lru_exec M op l) as [l0 r0]. rewrite IH.
    destruct (lru_run M ops1 l0) as [l1 r1].
    destruct (lru_run M ops2 l1) as [l2 r2]. by rewrite app_assoc.
Qed.

Lemma find_elem_of k v l : find k l = Some v → (k, v) ∈ l.
Proof.
  induction l as [|[k' v'] l IH]; [done|]. rewrite find_cons. case_decide.
  - intros [= ->]. subst. left.
  - intros Hf. right. auto.
Qed.

Lemma lru_exec_elem_of M op k v l :
  (k, v) ∈ (lru_exec M op l).1 →
  (∃ now, op = CallPut k v now) ∨ ((k, v) ∈ l ∧ is_put_of k op = false).
Proof.
  destruct op as [k0 v0 now|k0 now|k0|]; simpl.
  - destruct (lru_put_cases M k0 v0 l)
      as [(v1 & Hf & ->)|[(Hf & Hc & ->)|(Hf & Hc & l' & x & -> & ->)]]; simpl.
    + rewrite elem_of_cons, without_elem_of. simpl.
      intros [[= -> ->]|[Hne Hin]]; [eauto|]. right. split; [done|].
      by apply bool_decide_eq_false.
    + rewrite elem_of_cons. intros [[= -> ->]|Hin]; [eauto|]. right. split; [done|].
      apply bool_decide_eq_false. intros ->. apply find_None in Hf.
      apply Hf, keys_elem_of. eauto.
    + rewrite elem_of_cons. intros [[= -> ->]|Hin]; [eauto|]. right.
      split; [apply elem_of_app; by left|].
      apply bool_decide_eq_false. intros ->. apply find_None in Hf.
      apply Hf, keys_elem_of. exists v. apply elem_of_app. by left.
  - unfold lru_get. destruct (find k0 l) as [v1|] eqn:Hf; [|by right].
    rewrite elem_of_cons, without_elem_of. intros [[= -> ->]|[_ Hin]]; right.
    + split; [by apply find_elem_of|done].
    + done.
  - rewrite without_elem_of. tauto.
  - by intros ?%elem_of_nil.
Qed.

Lemma last_put_snoc k ops op :
  last_put k (ops ++ [op]) =
    match op with
    | CallPut k' v _ => if bool_decide (k' = k) then Some v else last_put k ops
    | _ => last_put k ops
    end.
Proof.
  induction ops as [|o ops IH]; simpl.
  - by destruct op.
  - rewrite IH. destruct op as [k' v now| | |]; try done.
    by case_bool_decide.
Qed.

Lemma lru_run_snoc M ops op l :
  lru_run M (ops ++ [op]) l =
    ((lru_exec M op (lru_run M ops l).1).1,
     (lru_run M ops l).2 ++ (lru_exec M op (lru_run M ops l).1).2).
Proof.
  rewrite lru_run_app. destruct (lru_run M ops l) as [l1 r1]. simpl.
  destruct (lru_exec M op l1) as [l2 r2]. simpl. by rewrite app_nil_r.
Qed.

(** Every live pair carries the value of the last [Put] of its key. *)
Lemma lru_run_last_put M ops k v :
  (k, v) ∈ (lru_run M ops []).1 → last_put k ops = Some v.
Proof.
  revert k v. induction ops as [|op ops IH] using rev_ind; intros k v.
  - by intros ?%elem_of_nil.
  - rewrite lru_run_snoc, last_put_snoc. simpl.
    intros [[now ->]|[Hin Hop]]%lru_exec_elem_of.
    + by rewrite bool_decide_eq_true_2.
    + apply IH in Hin. destruct op as [k' v' now'| | |]; try done.
      simpl in Hop. by rewrite Hop.
Qed.

Lemma lru_exec_live M op l :
  (M ≤ 0)%Z →
  list_to_set (lru_exec M op l).1.*1 =@{gset Key} live_step (list_to_set l.*1) op.
Proof.
  intros HM. apply set_eq. intros x. rewrite elem_of_list_to_set.
  destruct op as [k v now|k now|k|]; simpl.
  - rewrite elem_of_union, elem_of_singleton, elem_of_list_to_set.
    destruct (lru_put_cases M k v l)
      as [(v0 & Hf & ->)|[(Hf & Hc & ->)|(Hf & Hc & l' & y & -> & ->)]]; simpl.
    + rewrite elem_of_cons, without_keys.
      assert (k ∈ l.*1) by (apply keys_elem_of; eauto using find_elem_of).
      destruct (decide (x = k)); tauto.
    + by rewrite elem_of_cons.
    + lia.
  - by rewrite lru_get_keys, elem_of_list_to_set.
  - rewrite without_keys, elem_of_difference, elem_of_singleton, elem_of_list_to_set.
    tauto.
  - rewrite elem_of_nil. set_solver.
Qed.

Lemma lru_run_live M ops : ∀ l,
  (M ≤ 0)%Z →
  list_to_set (lru_run M ops l).1.*1 =@{gset Key} foldl live_step (list_to_set l.*1) ops.
Proof.
  induction ops as [|op ops IH]; intros l HM; [done|]. simpl.
  rewrite <-(lru_exec_live M op l HM).
  destruct (lru_exec M op l) as [l1 r1]. specialize (IH l1 HM).
  by destruct (lru_run M ops l1).
Qed.

Lemma lru_exec_unbounded M op l :
  (M ≤ 0)%Z → ∀ k v, (lru_exec M op l).2 = [] ∨ ¬ ∃ now, op = CallPut k v now.
Proof.
  intros HM k v. destruct op as [k0 v0 now| | |]; try (right; by intros [? ?]).
  left. simpl.
  destruct (lru_put_cases M k0 v0 l)
    as [(v1 & Hf & ->)|[(Hf & Hc & ->)|(Hf & Hc & l' & x & -> & ->)]]; [done..|lia].
Qed.

(** Puts of keys that are all new and fit: nothing leaves, and the list
    grows at the front. *)
Lemma lru_puts_fresh M (puts : list (Key * Value * Time)) : ∀ l,
  NoDup (puts.*1.*1 ++ l.*1) →
  (M ≤ 0 ∨ Z.of_nat (length l + length puts) ≤ M)%Z →
  lru_run M (put_calls puts) l = (reverse puts.*1 ++ l, []).
Proof.
  induction puts as [|[[k v] now] puts IH]; intros l Hnd HM; [done|].
  simpl in *. apply NoDup_cons in Hnd as [Hk Hnd].
  destruct (lru_put_cases M k v l)
    as [(v1 & Hf & ->)|[(Hf & Hc & ->)|(Hf & Hc & l' & x & -> & ->)]].
  - exfalso. apply Hk, elem_of_app. right. apply keys_elem_of. eauto using find_elem_of.
  - rewrite IH.
    + by rewrite reverse_cons, <-app_assoc.
    + simpl. apply NoDup_app. apply NoDup_app in Hnd as (? & Hd & ?).
      split; [done|]. split; [|apply NoDup_cons; split; [|done]].
      * intros x Hx [->|?]%elem_of_cons; [|by eapply Hd].
        apply Hk, elem_of_app. by left.
      * intros Hin. apply Hk, elem_of_app. by right.
    + simpl. lia.
  - rewrite length_app in *. simpl in *. lia.
Qed.

(** [N] puts of new keys fill a list of capacity [N]; one more pushes out
    the first. *)
Lemma lru_puts_overflow (N : nat) (p : Key * Value * Time)
    (rest : list (Key * Value * Time)) :
  (0 < N)%nat → length rest = N → NoDup (p :: rest).*1.*1 →
  lru_run (Z.of_nat N) (put_calls (p :: rest)) [] = (reverse rest.*1, [p.1]).
Proof.
  intros HN Hlen Hnd.
  destruct (exists_last (l:=rest)) as (front & q & ->).
  { intros ->. simpl in *. lia. }
  rewrite length_app in Hlen. simpl in Hlen.
  rewrite app_comm_cons. unfold put_calls. rewrite fmap_app, lru_run_app.
  fold (put_calls (p :: front)). rewrite lru_puts_fresh; cycle 1.
  { rewrite app_nil_r. rewrite app_comm_cons, !fmap_app in Hnd.
    by apply NoDup_app in Hnd as (? & _ & _). }
  { right. simpl. lia. }
  rewrite app_nil_r. destruct q as [[k v] now].
  rewrite (fmap_cons fst p front), reverse_cons.
  change (lru_run (Z.of_nat N) _ (reverse front.*1 ++ [p.1]))
    with (let '(l1, r1) := lru_put (Z.of_nat N) k v (reverse front.*1 ++ [p.1]) in
          (l1, r1 ++ [])).
  destruct (lru_put_cases (Z.of_nat N) k v (reverse front.*1 ++ [p.1]))
    as [(v1 & Hf & ->)|[(Hf & Hc & ->)|(Hf & Hc & l' & x & Heq & ->)]].
  - exfalso. apply find_elem_of in Hf.
    rewrite app_comm_cons, !fmap_app in Hnd. apply NoDup_app in Hnd as (_ & Hd & _).
    apply (Hd k); [|simpl; left].
    change (k ∈ ((p :: front).*1).*1). apply keys_elem_of. exists v1.
    rewrite elem_of_app, elem_of_reverse, list_elem_of_singleton in Hf.
    rewrite fmap_cons. destruct Hf as [Hf|Hf]; [by right|rewrite Hf; left].
  - rewrite length_app, length_reverse, !length_fmap in Hc. simpl in Hc. lia.
  - apply app_inj_tail in Heq as [<- <-]. simpl.
    by rewrite fmap_app, reverse_app.
Qed.
End Lru.

Section Reached.
Context `{Countable Key} {Value Time Event : Type}.
Implicit Types (c : localCache Key Value Time Event) (k : Key) (v : Value)
  (opts : list (Option Key Value Event))
  (op : call Key Value Time) (h ops : list (call Key Value Time)).

Local Abbreviation New := (LocalCache.New (Time:=Time)).

Lemma run_New opts h :
  ∃ c rem,
    run (New opts) h = Some (c, fire (onRemoval (New opts)) rem) ∧
    rem ≡ₚ (lru_run (maximumSize (New opts)) h []).2 ∧
    wf c ∧
    view (entries c) = (lru_run (maximumSize (New opts)) h []).1 ∧
    maximumSize c = maximumSize (New opts) ∧
    onRemoval c = onRemoval (New opts).
Proof.
  destruct (run_refines h (New opts) (wf_New opts)) as (c & rem & ? & ? & ? & ? & ? & ?).
  exists c, rem. by rewrite <-(view_New (Time:=Time) opts).
Qed.

Lemma wf_size c : wf c → size (cache c) = length (order (entries c)).
Proof.
  intros Hwf. rewrite <-length_map_to_list, <-(length_fmap snd).
  by rewrite (wf_index_perm c Hwf).
Qed.

Lemma wf_Len c : wf c → Len (entries c) = Z.of_nat (length (view (entries c))).
Proof. intros Hwf. unfold Len. by rewrite wf_view_length. Qed.

Lemma wf_cache_None c k : wf c → cache c !! k = None ↔ k ∉ (view (entries c)).*1.
Proof.
  intros Hwf. rewrite wf_view_keys by done. rewrite <-eq_None_not_Some. done.
Qed.

Lemma GetIfPresent_absent c k now :
  cache c !! k = None → GetIfPresent c k now = Some (c, None).
Proof. intros Hk. unfold GetIfPresent. by rewrite Hk. Qed.

Lemma run_capacity opts h :
  (0 < maximumSize (New opts))%Z →
  ∃ c evs, run (New opts) h = Some (c, evs) ∧ wf c ∧
    maximumSize c = maximumSize (New opts) ∧
    (Len (entries c) ≤ maximumSize (New opts))%Z ∧
    (Z.of_nat (size (cache c)) ≤ maximumSize (New opts))%Z.
Proof.
  intros HM. destruct (run_New opts h) as (c & rem & Hrun & _ & Hwf & Hv & HMc & _).
  exists c, (fire (onRemoval (New opts)) rem). split; [done|]. split; [done|].
  split; [done|].
  rewrite (wf_size c Hwf). fold (Len (entries c)). rewrite (wf_Len c Hwf), Hv.
  split; apply lru_run_length; simpl; lia.
Qed.

(** C1.  Capacity invariant.  For a cache built with a positive maximum
    size, any sequence of [Put] calls (any keys and values) runs to the
    end, and afterwards the number of live entries, counted in the list
    and in the index, is at most the maximum size.  A prefix of a sequence
    of puts is again such a sequence, so the bound holds after each
    call. *)
Theorem capacity_invariant opts (puts : list (Key * Value * Time)) :
  (0 < maximumSize (New opts))%Z →
  ∃ c evs, run (New opts) (put_calls puts) = Some (c, evs) ∧
    (Len (entries c) ≤ maximumSize (New opts))%Z ∧
    (Z.of_nat (size (cache c)) ≤ maximumSize (New opts))%Z.
Proof.
  intros HM. destruct (run_capacity opts (put_calls puts) HM) as (c & evs & ? & _ & _ & ?).
  by exists c, evs.
Qed.

(** C2.  LRU order.  With capacity [N > 0], [N + 1] puts of pairwise
    distinct keys into a new cache, with no other call in between, make
    exactly one entry leave: the listener, if there is one, is called once,
    on the key and value of the first put; that key is gone from the index
    and the other [N] keys are in it. *)
Theorem lru_evicts_first_inserted (N : nat) opts
    (p : Key * Value * Time) (rest : list (Key * Value * Time)) :
  (0 < N)%nat →
  maximumSize (New opts) = Z.of_nat N →
  length rest = N →
  NoDup (p :: rest).*1.*1 →
  ∃ c,
    run (New opts) (put_calls (p :: rest))
      = Some (c, fire (onRemoval (New opts)) [(p.1.1, p.1.2)]) ∧
    cache c !! p.1.1 = None ∧
    (∀ k, is_Some (cache c !! k) ↔ k ∈ rest.*1.*1) ∧
    Len (entries c) = Z.of_nat N.
Proof.
  intros HN HM Hlen Hnd.
  destruct (run_New opts (put_calls (p :: rest)))
    as (c & rem & Hrun & Hr & Hwf & Hv & _ & _).
  rewrite HM, lru_puts_overflow in Hr, Hv by done. simpl in Hr, Hv.
  apply Permutation_singleton_r in Hr as ->. exists c.
  assert (∀ k, is_Some (cache c !! k) ↔ k ∈ rest.*1.*1) as Hkeys.
  { intros k. by rewrite <-wf_view_keys, Hv, fmap_reverse, elem_of_reverse. }
  split; [by destruct p as [[? ?] ?]|]. split; [|split; [done|]].
  - apply eq_None_not_Some. rewrite Hkeys. simpl in Hnd.
    by apply NoDup_cons in Hnd as [? _].
  - rewrite wf_Len, Hv by done. by rewrite length_reverse, length_fmap, Hlen.
Qed.

Lemma wf_contents_Some c k v :
  wf c → contents c !! k = Some v ↔ (k, v) ∈ view (entries c).
Proof.
  intros Hwf. rewrite wf_contents by done. apply find_Some. by apply wf_view_nodup.
Qed.

Lemma wf_contents_None c k :
  wf c → contents c !! k = None ↔ k ∉ (view (entries c)).*1.
Proof. intros Hwf. rewrite wf_contents by done. apply find_None. Qed.

(** What one call removes, for a cache reached from [New]. *)
Lemma exec_removed c op :
  wf c →
  ∃ c' rem, exec c op = Some (c', fire (onRemoval c) rem) ∧ wf c' ∧
    rem ≡ₚ (lru_exec (maximumSize c) op (view (entries c))).2 ∧
    view (entries c') = (lru_exec (maximumSize c) op (view (entries c))).1 ∧
    maximumSize c' = maximumSize c ∧ onRemoval c' = onRemoval c ∧
    NoDup rem ∧
    (∀ k v, (k, v) ∈ rem ↔ contents c !! k = Some v ∧ contents c' !! k = None).
Proof.
  intros Hwf.
  destruct (exec_refines c op Hwf) as (c' & rem & He & Hr & Hwf' & Hv & HM & Hf).
  exists c', rem. do 6 (split; [done|]).
  destruct (lru_exec_removed (maximumSize c) op (view (entries c))) as [Hnd Hin];
    [by apply wf_view_nodup|].
  split; [by rewrite Hr|]. intros k v.
  rewrite Hr, Hin, (wf_contents_Some c), (wf_contents_None c'), Hv by done. done.
Qed.

(** C4.  Removal listener completeness.  With a listener [f] configured,
    take any history [h] from a new cache and any next call [op].  The
    call runs the listener on the pairs [rem], each once, and [rem] holds
    exactly the entries that were live before the call and are gone after
    it, with the value they had.  That value is the one of the last [Put]
    of the key. *)
Theorem removal_listener_complete opts (f : OnRemoval Key Value Event) h op :
  onRemoval (New opts) = Some f →
  ∃ c evs0 c' rem,
    run (New opts) h = Some (c, evs0) ∧
    exec c op = Some (c', fire (Some f) rem) ∧
    NoDup rem ∧
    (∀ k v, (k, v) ∈ rem ↔ contents c !! k = Some v ∧ contents c' !! k = None) ∧
    (∀ k v, contents c !! k = Some v → last_put k h = Some v).
Proof.
  intros Hf. destruct (run_New opts h) as (c & rem0 & Hrun & _ & Hwf & Hv & _ & Hfc).
  destruct (exec_removed c op Hwf) as (c' & rem & He & _ & _ & _ & _ & _ & Hnd & Hin).
  rewrite Hfc, Hf in He. exists c, (fire (onRemoval (New opts)) rem0), c', rem.
  do 4 (split; [done|]). intros k v Hk%(wf_contents_Some c k v Hwf).
  rewrite Hv in Hk. by eapply lru_run_last_put.
Qed.

Lemma filter_unique {A} (P : A → Prop) `{!∀ x, Decision (P x)} (l : list A) x :
  NoDup l → x ∈ l → (∀ y, y ∈ l → P y ↔ y = x) → filter P l = [x].
Proof.
  induction l as [|y l IH]; intros Hnd Hin HP; [by apply elem_of_nil in Hin|].
  apply NoDup_cons in Hnd as [Hy Hnd]. rewrite filter_cons.
  destruct (decide (P y)) as [HPy|HPy].
  - assert (y = x) as -> by (apply HP; [left|done]). f_equal.
    clear IH Hin HPy. induction l as [|z l IH]; [done|].
    apply not_elem_of_cons in Hy as [Hz Hy]. apply NoDup_cons in Hnd as [_ Hnd].
    rewrite filter_cons, decide_False.
    + apply IH; [done..|]. intros w [->|Hw]%elem_of_cons; apply HP; [left|].
      right. by right.
    + intros HPz. apply HP in HPz; [done|]. right. left.
  - apply elem_of_cons in Hin as [->|Hin]; [exfalso; apply HPy, HP; [left|done]|].
    apply IH; [done..|]. intros w Hw. apply HP. by right.
Qed.

(** C5.  At most one owner.  In a cache reached from a new one by any
    history, a key of the index is held by exactly one linked element, the
    one the index names.  If the next call invalidates [k], or makes the
    entry for [k] leave the cache ([rem] holds the entries that left), then
    after any further calls among which there is no [Put] of [k],
    [GetIfPresent] of [k] finds nothing. *)
Theorem at_most_one_owner opts h op k ops now :
  forallb (λ o, negb (is_put_of k o)) ops = true →
  ∃ c evs0 c1 rem c2 evs2,
    run (New opts) h = Some (c, evs0) ∧
    (∀ k' e, cache c !! k' = Some e →
       filter (λ e', key <$> elements (entries c) !! e' = Some k') (order (entries c))
         = [e]) ∧
    exec c op = Some (c1, fire (onRemoval (New opts)) rem) ∧
    (∀ k' v, (k', v) ∈ rem ↔ contents c !! k' = Some v ∧ contents c1 !! k' = None) ∧
    run c1 ops = Some (c2, evs2) ∧
    (op = CallInvalidate k ∨ k ∈ rem.*1 → GetIfPresent c2 k now = Some (c2, None)).
Proof.
  intros Hops.
  destruct (run_New opts h) as (c & rem0 & Hrun & _ & Hwf & _ & _ & Hfc).
  destruct (exec_removed c op Hwf)
    as (c1 & rem & He & Hwf1 & Hr & Hv1 & HM1 & _ & _ & Hin).
  destruct (run_refines ops c1 Hwf1) as (c2 & rem2 & Hrun2 & _ & Hwf2 & Hv2 & _ & _).
  rewrite Hfc in He.
  exists c, (fire (onRemoval (New opts)) rem0), c1, rem, c2, (fire (onRemoval c1) rem2).
  split; [done|]. split; [|do 3 (split; [done|])].
  - intros k' e Hk'. destruct (wf_indexed c k' e Hwf Hk') as [He' _].
    apply filter_unique; [apply (wf_nodup c Hwf)|done|].
    intros e' He''. destruct (wf_rep c k' e Hwf Hk' e' He'') as (en & -> & Hiff).
    simpl. rewrite <-Hiff. split; congruence.
  - intros Hleft. apply GetIfPresent_absent, (wf_cache_None c2 k Hwf2).
    rewrite Hv2. apply lru_run_absent; [done|]. rewrite <-(wf_contents_None c1 k Hwf1).
    destruct Hleft as [->|Hk].
    + rewrite wf_contents_None, Hv1 by done. simpl. rewrite without_keys. tauto.
    + apply keys_elem_of in Hk as [v Hk]. by apply Hin in Hk as [_ ?].
Qed.

(** C6.  Idempotent clear.  In a cache reached by any history,
    [InvalidateAll] runs the listener, if there is one, once on each live
    entry and on nothing else; right after it [GetIfPresent] finds no key;
    and a second [InvalidateAll] produces no listener event. *)
Theorem invalidateAll_idempotent opts h k now :
  ∃ c evs0 c1 rem c2 evs2,
    run (New opts) h = Some (c, evs0) ∧
    InvalidateAll c = Some (c1, fire (onRemoval (New opts)) rem) ∧
    NoDup rem ∧ (∀ k' v, (k', v) ∈ rem ↔ contents c !! k' = Some v) ∧
    GetIfPresent c1 k now = Some (c1, None) ∧
    InvalidateAll c1 = Some (c2, evs2) ∧ evs2 = [].
Proof.
  destruct (run_New opts h) as (c & rem0 & Hrun & _ & Hwf & _ & _ & Hfc).
  destruct (InvalidateAll_refines c Hwf)
    as (c1 & rem & Hi1 & Hr1 & Hwf1 & Hv1 & Hc1 & _ & Hf1).
  destruct (InvalidateAll_refines c1 Hwf1)
    as (c2 & rem2 & Hi2 & Hr2 & _ & _ & _ & _ & _).
  rewrite Hv1 in Hr2. apply Permutation_nil_r in Hr2 as ->. rewrite fire_nil in Hi2.
  rewrite Hfc in Hi1.
  exists c, (fire (onRemoval (New opts)) rem0), c1, rem, c2, [].
  do 2 (split; [done|]). split; [|split; [|split; [|done]]].
  - rewrite Hr1. apply NoDup_keys. by apply wf_view_nodup.
  - intros k' v. by rewrite Hr1, wf_contents_Some.
  - apply GetIfPresent_absent. by rewrite Hc1, lookup_empty.
Qed.
End Reached.

Section Bounds.
Context `{Countable Key} {Value Time Event : Type}.
Implicit Types (c : localCache Key Value Time Event) (k : Key) (v : Value)
  (opts : list (Option Key Value Event))
  (op : call Key Value Time) (h ops : list (call Key Value Time)).
Local Abbreviation New := (LocalCache.New (Time:=Time)).

Lemma find_without_ne k k' (l : list (Key * Value)) :
  k' ≠ k → find k' (without k l) = find k' l.
Proof.
  intros Hne. induction l as [|[k0 v0] l IH]; [done|]. unfold without in *.
  rewrite filter_cons. simpl. case_decide.
  - rewrite !find_cons. by rewrite IH.
  - rewrite find_cons, decide_False by intuition congruence. done.
Qed.

(** C8.  A non-positive maximum size means no bound.  After any history
    the keys of the index are the keys put and not invalidated since, and
    the list holds as many entries; a further [Put] calls no listener and
    changes nothing but the entry it stores. *)
Theorem unbounded_when_nonpositive opts h k v now :
  (maximumSize (New opts) ≤ 0)%Z →
  ∃ c evs0 c',
    run (New opts) h = Some (c, evs0) ∧
    dom (cache c) = live_keys h ∧
    Len (entries c) = Z.of_nat (size (live_keys h)) ∧
    Put c k v now = Some (c', []) ∧
    contents c' = <[k := v]> (contents c).
Proof.
  intros HM. destruct (run_New opts h) as (c & rem0 & Hrun & _ & Hwf & Hv & HMc & _).
  destruct (Put_refines c k v now Hwf) as (c' & HP & Hwf' & Hv' & _ & _).
  assert (list_to_set (view (entries c)).*1 = live_keys h) as Hlive
    by (rewrite Hv; apply (lru_run_live _ h [] HM)).
  exists c, (fire (onRemoval (New opts)) rem0), c'. split; [done|].
  split; [|split; [|split]].
  - rewrite <-Hlive. apply set_eq. intros k'.
    by rewrite elem_of_dom, elem_of_list_to_set, wf_view_keys.
  - rewrite <-Hlive, size_list_to_set by (by apply wf_view_nodup).
    rewrite length_fmap. by apply wf_Len.
  - rewrite HP. f_equal. f_equal. rewrite HMc.
    destruct (lru_put_cases (maximumSize (New opts)) k v (view (entries c)))
      as [(v1 & _ & ->)|[(_ & _ & ->)|(_ & ? & _)]]; [apply fire_nil..|lia].
  - apply map_eq. intros k'. rewrite lookup_insert, !wf_contents, Hv' by done.
    rewrite HMc.
    destruct (lru_put_cases (maximumSize (New opts)) k v (view (entries c)))
      as [(v1 & _ & ->)|[(_ & _ & ->)|(_ & ? & _)]]; [..|lia]; simpl;
      rewrite find_cons; case_decide; try done.
    by apply find_without_ne.
Qed.

Lemma New_maximumSize_default opts :
  forallb (λ o, negb (setsMaximumSize o)) opts = true →
  maximumSize (New opts) = defaultMaximumSize.
Proof.
  unfold LocalCache.New.
  change defaultMaximumSize
    with (maximumSize (newLocalCache : localCache Key Value Time Event)).
  generalize (newLocalCache : localCache Key Value Time Event).
  induction opts as [|opt opts IH]; intros c0 Hopts; [done|]. simpl in *.
  apply andb_prop in Hopts as [Hopt Hopts]. rewrite IH by done.
  by destruct opt.
Qed.

(** C10.  Without a [WithMaximumSize] option the maximum size is
    [2^31 - 1].  The cache is bounded by it after any history; and in a
    cache that holds that many entries, a [Put] of a new key goes through
    the eviction branch: the size stays and an entry that was live is
    gone. *)
Theorem default_cache_is_bounded opts h :
  forallb (λ o, negb (setsMaximumSize o)) opts = true →
  maximumSize (New opts) = (2 ^ 31 - 1)%Z ∧
  ∃ c evs,
    run (New opts) h = Some (c, evs) ∧
    maximumSize c = 2147483647%Z ∧
    (Len (entries c) ≤ 2147483647)%Z ∧
    (∀ k v now,
       cache c !! k = None → Len (entries c) = 2147483647%Z →
       ∃ c' evs' k',
         Put c k v now = Some (c', evs') ∧
         Len (entries c') = 2147483647%Z ∧
         is_Some (contents c !! k') ∧ contents c' !! k' = None).
Proof.
  intros Hopts. pose proof (New_maximumSize_default opts Hopts) as HM.
  change defaultMaximumSize with 2147483647%Z in HM. split; [done|].
  destruct (run_capacity opts h) as (c & evs & Hrun & Hwf & HMc & HLen & _); [by rewrite HM|].
  rewrite HM in *. exists c, evs. do 3 (split; [done|]).
  intros k v now Hk Hfull.
  destruct (exec_removed c (CallPut k v now) Hwf)
    as (c' & rem & HP & Hwf' & Hr & Hv' & _ & _ & _ & Hin).
  simpl in HP, Hr, Hv'. rewrite HMc in Hr, Hv'. rewrite (wf_Len c Hwf) in Hfull.
  destruct (lru_put_cases 2147483647 k v (view (entries c)))
    as [(v1 & Hf & _)|[(_ & ? & _)|(_ & _ & l' & x & Hl & Heq)]].
  - apply (wf_find_None c k Hwf) in Hk. congruence.
  - lia.
  - rewrite Heq in Hr, Hv'. simpl in Hr, Hv'.
    apply Permutation_singleton_r in Hr as ->.
    destruct (Hin x.1 x.2) as [[Hx Hx'] _]; [destruct x; left|].
    exists c', (fire (onRemoval c) [x]), x.1. split; [done|].
    split; [|by rewrite Hx].
    rewrite (wf_Len c' Hwf'), Hv'. rewrite Hl, length_app in Hfull. simpl in *. lia.
Qed.
End Bounds.


(** ** The theorems at concrete calls *)

Local Abbreviation New_nat :=
  (New (Key:=nat) (Value:=nat) (Time:=nat) (Event:=nat * nat)).

Example run_lru_overflow :
  observe (run (New_nat [WithMaximumSize 2; WithRemovalListener (Some recorder)])
             [CallPut 1 10 0; CallPut 2 20 1; CallGetIfPresent 1 2; CallPut 3 30 3])
  = Some ([(3, 30); (1, 10)], [(2, 20)]).
Proof. vm_compute. reflexivity. Qed.

Example run_replace_invalidate_clear :
  observe (run (New_nat [WithMaximumSize 2; WithRemovalListener (Some recorder)])
             [CallPut 1 10 0; CallPut 1 11 1; CallInvalidate 1; CallInvalidate 1;
              CallPut 2 20 2; CallInvalidateAll; CallInvalidateAll])
  = Some ([], [(1, 11); (2, 20)]).
Proof. vm_compute. reflexivity. Qed.

Example run_unbounded :
  observe (run (New_nat [WithMaximumSize (-1); WithRemovalListener (Some recorder)])
             [CallPut 1 10 0; CallPut 2 20 1; CallPut 3 30 3])
  = Some ([(3, 30); (2, 20); (1, 10)], []).
Proof. vm_compute. reflexivity. Qed.

Example run_no_listener :
  observe (run (New_nat [WithMaximumSize 1])
             [CallPut 1 10 0; CallPut 2 20 1; CallInvalidate 2])
  = Some ([], []).
Proof. vm_compute. reflexivity. Qed.

Lemma capacity_invariant_witness :
  (0 < maximumSize (New_nat
                        [WithMaximumSize 2]))%Z ∧
  ∃ c evs,
    run (New_nat [WithMaximumSize 2])
        (put_calls [(1, 10, 0); (2, 20, 1); (1, 11, 2); (3, 30, 3)]) = Some (c, evs) ∧
    (Len (entries c) ≤ maximumSize (New_nat [WithMaximumSize 2]))%Z ∧
    (Z.of_nat (size (cache c)) ≤ maximumSize (New_nat [WithMaximumSize 2]))%Z.
Proof.
  split; [reflexivity|].
  apply (capacity_invariant (Key:=nat) (Value:=nat) (Time:=nat) (Event:=nat * nat)
           [WithMaximumSize 2] [(1, 10, 0); (2, 20, 1); (1, 11, 2); (3, 30, 3)]).
  reflexivity.
Defined.

Lemma lru_evicts_first_inserted_witness :
  ((0 < 2)%nat ∧
   maximumSize (New_nat
                  [WithMaximumSize 2; WithRemovalListener (Some recorder)]) = Z.of_nat 2 ∧
   length [(2, 20, 1); (3, 30, 2)] = 2 ∧
   NoDup ((1, 10, 0) :: [(2, 20, 1); (3, 30, 2)]).*1.*1) ∧
  ∃ c,
    run (New_nat
           [WithMaximumSize 2; WithRemovalListener (Some recorder)])
        (put_calls ((1, 10, 0) :: [(2, 20, 1); (3, 30, 2)])) = Some (c, [(1, 10)]) ∧
    cache c !! 1 = None ∧
    (∀ k, is_Some (cache c !! k) ↔ k ∈ [(2, 20, 1); (3, 30, 2)].*1.*1) ∧
    Len (entries c) = Z.of_nat 2.
Proof.
  assert (NoDup ((1, 10, 0) :: [(2, 20, 1); (3, 30, 2)]).*1.*1) as Hnd
    by (apply (bool_decide_unpack _); vm_compute; reflexivity).
  split; [repeat split; [lia|exact Hnd]|].
  apply (lru_evicts_first_inserted (Key:=nat) (Value:=nat) (Time:=nat)
           (Event:=nat * nat) 2
           [WithMaximumSize 2; WithRemovalListener (Some recorder)]
           (1, 10, 0) [(2, 20, 1); (3, 30, 2)]);
    [lia|reflexivity|reflexivity|exact Hnd].
Defined.

Lemma removal_listener_complete_witness :
  onRemoval (New_nat
               [WithMaximumSize 2; WithRemovalListener (Some recorder)]) = Some recorder ∧
  ∃ c evs0 c' rem,
    run (New_nat
           [WithMaximumSize 2; WithRemovalListener (Some recorder)])
        [CallPut 1 10 0; CallPut 2 20 1; CallPut 1 11 2] = Some (c, evs0) ∧
    exec c (CallPut 3 30 3) = Some (c', fire (Some recorder) rem) ∧
    NoDup rem ∧
    (∀ k v, (k, v) ∈ rem ↔ contents c !! k = Some v ∧ contents c' !! k = None) ∧
    (∀ k v, contents c !! k = Some v →
            last_put k [CallPut 1 10 0; CallPut 2 20 1; CallPut 1 11 2] = Some v).
Proof.
  split; [reflexivity|].
  apply (removal_listener_complete (Key:=nat) (Value:=nat) (Time:=nat)
           [WithMaximumSize 2; WithRemovalListener (Some recorder)] recorder
           [CallPut 1 10 0; CallPut 2 20 1; CallPut 1 11 2] (CallPut 3 30 3)).
  reflexivity.
Defined.

Lemma at_most_one_owner_witness :
  forallb (λ o : call nat nat nat, negb (is_put_of 1 o))
          [CallGetIfPresent 1 3; CallPut 4 40 4; CallGetIfPresent 1 5] = true ∧
  ∃ c evs0 c1 rem c2 evs2,
    run (New_nat
           [WithMaximumSize 2; WithRemovalListener (Some recorder)])
        [CallPut 1 10 0; CallPut 2 20 1] = Some (c, evs0) ∧
    (∀ k' e, cache c !! k' = Some e →
       filter (λ e', key <$> elements (entries c) !! e' = Some k') (order (entries c))
         = [e]) ∧
    exec c (CallPut 3 30 2)
      = Some (c1, fire (onRemoval (New_nat
                          [WithMaximumSize 2; WithRemovalListener (Some recorder)])) rem) ∧
    (∀ k' v, (k', v) ∈ rem ↔ contents c !! k' = Some v ∧ contents c1 !! k' = None) ∧
    run c1 [CallGetIfPresent 1 3; CallPut 4 40 4; CallGetIfPresent 1 5] = Some (c2, evs2) ∧
    (CallPut 3 30 2 = CallInvalidate 1 ∨ 1 ∈ rem.*1 →
     GetIfPresent c2 1 6 = Some (c2, None)).
Proof.
  split; [reflexivity|].
  apply (at_most_one_owner (Key:=nat) (Value:=nat) (Time:=nat)
           [WithMaximumSize 2; WithRemovalListener (Some recorder)]
           [CallPut 1 10 0; CallPut 2 20 1] (CallPut 3 30 2) 1
           [CallGetIfPresent 1 3; CallPut 4 40 4; CallGetIfPresent 1 5] 6).
  reflexivity.
Defined.

Lemma unbounded_when_nonpositive_witness :
  (maximumSize (New_nat
                  [WithMaximumSize 0; WithRemovalListener (Some recorder)]) ≤ 0)%Z ∧
  ∃ c evs0 c',
    run (New_nat
           [WithMaximumSize 0; WithRemovalListener (Some recorder)])
        [CallPut 1 10 0; CallPut 2 20 1; CallInvalidate 1; CallPut 3 30 2; CallPut 2 21 3]
      = Some (c, evs0) ∧
    dom (cache c)
      = live_keys [CallPut 1 10 0; CallPut 2 20 1; CallInvalidate 1; CallPut 3 30 2;
                   CallPut 2 21 3] ∧
    Len (entries c)
      = Z.of_nat (size (live_keys [CallPut 1 10 0; CallPut 2 20 1; CallInvalidate 1;
                                   CallPut 3 30 2; CallPut 2 21 3])) ∧
    Put c 4 40 4 = Some (c', []) ∧
    contents c' = <[4 := 40]> (contents c).
Proof.
  split; [simpl; lia|].
  apply (unbounded_when_nonpositive (Key:=nat) (Value:=nat) (Time:=nat)
           [WithMaximumSize 0; WithRemovalListener (Some recorder)]
           [CallPut 1 10 0; CallPut 2 20 1; CallInvalidate 1; CallPut 3 30 2; CallPut 2 21 3]
           4 40 4).
  simpl; lia.
Defined.

Lemma default_cache_is_bounded_witness :
  forallb (λ o : Option nat nat (nat * nat), negb (setsMaximumSize o))
          [WithRemovalListener (Some recorder)] = true ∧
  maximumSize (New_nat
                 [WithRemovalListener (Some recorder)]) = (2 ^ 31 - 1)%Z ∧
  ∃ c evs,
    run (New_nat [WithRemovalListener (Some recorder)])
        [CallPut 1 10 0; CallPut 2 20 1] = Some (c, evs) ∧
    maximumSize c = 2147483647%Z ∧
    (Len (entries c) ≤ 2147483647)%Z ∧
    (∀ k v now,
       cache c !! k = None → Len (entries c) = 2147483647%Z →
       ∃ c' evs' k',
         Put c k v now = Some (c', evs') ∧
         Len (entries c') = 2147483647%Z ∧
         is_Some (contents c !! k') ∧ contents c' !! k' = None).
Proof.
  split; [reflexivity|].
  apply (default_cache_is_bounded (Key:=nat) (Value:=nat) (Time:=nat)
           [WithRemovalListener (Some recorder)] [CallPut 1 10 0; CallPut 2 20 1]).
  reflexivity.
Defined.

End CacheTheorems.

(* ===================================================================== *)
(** * More about the local cache *)
(* ===================================================================== *)

Module CacheMore.
Import LocalCache LRU CacheTheorems.

Section PairLists.
Context `{Countable Key} {Value : Type}.
Implicit Types (l : list (Key * Value)) (k : Key) (v : Value).

Lemma find_without k k' l :
  find k' (without k l) = if decide (k' = k) then None else find k' l.
Proof.
  case_decide as Hk; [subst|by apply find_without_ne].
  apply find_None. rewrite without_keys. by intros [? _].
Qed.

Lemma find_snoc k l (x : Key * Value) :
  NoDup (l ++ [x]).*1 →
  find k (l ++ [x]) = if decide (k = x.1) then Some x.2 else find k l.
Proof.
  intros Hnd. destruct x as [k0 v0]. simpl.
  destruct (find k (l ++ [(k0, v0)])) as [v|] eqn:Hf.
  - apply find_Some in Hf; [|done].
    rewrite fmap_app in Hnd. apply NoDup_app in Hnd as (Hnd & Hd & _).
    apply elem_of_app in Hf as [Hin|Hin%list_elem_of_singleton].
    + rewrite decide_False.
      * symmetry. by apply find_Some.
      * intros ->. apply (Hd k0); [|left]. apply keys_elem_of. eauto.
    + simplify_eq. by rewrite decide_True.
  - apply find_None in Hf. rewrite fmap_app, elem_of_app in Hf.
    rewrite decide_False.
    + symmetry. apply find_None. tauto.
    + intros ->. apply Hf. right. left.
Qed.

Lemma without_length_exact k v l :
  NoDup l.*1 → find k l = Some v → S (length (without k l)) = length l.
Proof.
  induction l as [|[k' v'] l IH]; [done|]. simpl. intros [Hn Hnd]%NoDup_cons.
  rewrite find_cons. unfold without in *. rewrite filter_cons. simpl. case_decide.
  - intros _. subst. rewrite decide_False by tauto.
    fold (without k l). by rewrite without_notin.
  - intros Hf. rewrite decide_True by done. simpl. f_equal. by apply IH.
Qed.
End PairLists.

Section FromNew.
Context `{Countable Key} {Value Time Event : Type}.
Implicit Types (c : localCache Key Value Time Event) (k : Key) (v : Value)
  (opts : list (Option Key Value Event))
  (op : call Key Value Time) (h ops : list (call Key Value Time)).
Local Abbreviation New := (LocalCache.New (Time:=Time)).

(** A cache reached from a new one. *)
Lemma reached opts h :
  ∃ c rem,
    run (New opts) h = Some (c, fire (onRemoval (New opts)) rem) ∧ wf c ∧
    maximumSize c = maximumSize (New opts) ∧ onRemoval c = onRemoval (New opts) ∧
    (0 < maximumSize c → Len (entries c) ≤ maximumSize c)%Z.
Proof.
  destruct (run_New opts h) as (c & rem & Hrun & _ & Hwf & Hv & HM & Hf).
  exists c, rem. do 4 (split; [done|]). intros HM0.
  rewrite (wf_Len c Hwf), Hv, HM. apply lru_run_length; simpl; lia.
Qed.

(** What [Put] does to the live pairs, case by case. *)
Lemma Put_cases c k v now :
  wf c → (0 < maximumSize c → Len (entries c) ≤ maximumSize c)%Z →
  ∃ c1, wf c1 ∧ maximumSize c1 = maximumSize c ∧ onRemoval c1 = onRemoval c ∧
    ((Put c k v now = Some (c1, []) ∧
      contents c1 = <[k := v]> (contents c) ∧
      (is_Some (contents c !! k) ∧ Len (entries c1) = Len (entries c) ∨
       contents c !! k = None ∧ Len (entries c1) = (Len (entries c) + 1)%Z ∧
       (maximumSize c ≤ 0 ∨ Len (entries c) < maximumSize c)%Z)) ∨
     (∃ k0 v0,
        k0 ≠ k ∧ contents c !! k = None ∧ contents c !! k0 = Some v0 ∧
        last (view (entries c)) = Some (k0, v0) ∧
        (0 < maximumSize c)%Z ∧ Len (entries c) = maximumSize c ∧
        Put c k v now = Some (c1, fire (onRemoval c) [(k0, v0)]) ∧
        contents c1 = <[k := v]> (delete k0 (contents c)) ∧
        Len (entries c1) = Len (entries c))).
Proof.
  intros Hwf Hcap.
  destruct (Put_refines c k v now Hwf) as (c1 & HP & Hwf1 & Hv1 & HM1 & Hf1).
  exists c1. do 3 (split; [done|]).
  pose proof (wf_view_nodup c Hwf) as Hnd.
  assert (∀ m : gmap Key Value,
            (∀ k', find k' (view (entries c1)) = m !! k') → contents c1 = m) as Hmap.
  { intros m Hm. apply map_eq. intros k'. by rewrite wf_contents. }
  rewrite (wf_Len c Hwf) in *. rewrite (wf_Len c1 Hwf1).
  destruct (lru_put_cases (maximumSize c) k v (view (entries c)))
    as [(v1 & Hf & Heq)|[(Hf & Hc & Heq)|(Hf & Hc & l' & x & Hl & Heq)]];
    rewrite Heq in HP, Hv1; simpl in HP, Hv1; rewrite Hv1.
  - left. rewrite fire_nil in HP. split; [done|]. split.
    + apply Hmap. intros k'. rewrite Hv1, lookup_insert, wf_contents by done.
      rewrite find_cons, find_without. by repeat case_decide; simplify_eq.
    + left. split; [by rewrite wf_contents, Hf|].
      pose proof (without_length_exact k v1 _ Hnd Hf). simpl. lia.
  - left. rewrite fire_nil in HP. split; [done|]. split.
    + apply Hmap. intros k'. rewrite Hv1, lookup_insert, wf_contents by done.
      rewrite find_cons. by repeat case_decide; simplify_eq.
    + right. split; [by rewrite wf_contents|]. simpl. split; lia.
  - right. destruct x as [k0 v0]. exists k0, v0.
    rewrite Hl in Hnd.
    assert (k0 ≠ k) as Hne.
    { intros ->. apply find_None in Hf. apply Hf. rewrite Hl, fmap_app, elem_of_app.
      right. left. }
    specialize (Hcap ltac:(lia)). rewrite Hl, length_app in Hc, Hcap. simpl in Hc, Hcap.
    split; [done|]. split; [by rewrite wf_contents|].
    split; [rewrite wf_contents, Hl, find_snoc by done; by rewrite decide_True|].
    split; [by rewrite Hl, last_snoc|]. split; [lia|]. split; [rewrite Hl, length_app; simpl; lia|]. split; [done|]. split.
    + apply Hmap. intros k'.
      rewrite Hv1, lookup_insert, lookup_delete, wf_contents by done.
      rewrite find_cons, Hl, find_snoc by done. simpl.
      repeat case_decide; simplify_eq; try done.
      apply find_None. rewrite fmap_app in Hnd.
      apply NoDup_app in Hnd as (_ & Hd & _). intros Hin. apply (Hd _ Hin). left.
    + rewrite Hl, length_app. simpl. lia.
Qed.

(** X2.  What [Put] does to a cache reached by any history.  Either it calls
    no listener and only stores its pair: the size stays when the key was
    there, and grows by one when the key is new and the cache is unbounded
    or not full.  Or the key is new and the cache is full: then exactly one
    other entry leaves, the listener (if any) is called on it once, and the
    size stays. *)
Theorem Put_stores_and_evicts opts h k v now :
  ∃ c evs0 c1,
    run (New opts) h = Some (c, evs0) ∧
    ((Put c k v now = Some (c1, []) ∧
      contents c1 = <[k := v]> (contents c) ∧
      (is_Some (contents c !! k) ∧ Len (entries c1) = Len (entries c) ∨
       contents c !! k = None ∧ Len (entries c1) = (Len (entries c) + 1)%Z ∧
       (maximumSize c ≤ 0 ∨ Len (entries c) < maximumSize c)%Z)) ∨
     (∃ k0 v0,
        k0 ≠ k ∧ contents c !! k = None ∧ contents c !! k0 = Some v0 ∧
        (0 < maximumSize c)%Z ∧ Len (entries c) = maximumSize c ∧
        Put c k v now = Some (c1, fire (onRemoval c) [(k0, v0)]) ∧
        contents c1 = <[k := v]> (delete k0 (contents c)) ∧
        Len (entries c1) = Len (entries c))).
Proof.
  destruct (reached opts h) as (c & rem & Hrun & Hwf & _ & _ & Hcap).
  destruct (Put_cases c k v now Hwf Hcap) as (c1 & _ & _ & _ & Hcases).
  exists c, (fire (onRemoval (New opts)) rem), c1. split; [done|].
  destruct Hcases as [?|(k0 & v0 & ? & ? & ? & _ & ?)]; [by left|right].
  by exists k0, v0.
Qed.

Lemma lru_get_find k k' (l : list (Key * Value)) :
  NoDup l.*1 → find k' (lru_get k l) = find k' l.
Proof.
  intros Hnd. unfold lru_get. destruct (find k l) as [v|] eqn:Hf; [|done].
  rewrite find_cons, find_without. case_decide; [by subst|].
  by rewrite decide_False.
Qed.

Lemma lru_get_length k (l : list (Key * Value)) :
  NoDup l.*1 → length (lru_get k l) = length l.
Proof.
  intros Hnd. unfold lru_get. destruct (find k l) as [v|] eqn:Hf; [|done].
  simpl. by apply without_length_exact with v.
Qed.

Lemma contents_ext c c' :
  wf c → wf c' →
  (∀ k, find k (view (entries c)) = find k (view (entries c'))) →
  contents c = contents c'.
Proof. intros Hwf Hwf' Hfind. apply map_eq. intros k. by rewrite !wf_contents. Qed.

(** X5.  [GetIfPresent] returns what the cache holds for the key and changes
    neither the index, nor what any key maps to, nor the size, nor the
    configuration. *)
Theorem GetIfPresent_reads opts h k now :
  ∃ c evs0 c1,
    run (New opts) h = Some (c, evs0) ∧
    GetIfPresent c k now = Some (c1, contents c !! k) ∧
    contents c1 = contents c ∧ cache c1 = cache c ∧
    Len (entries c1) = Len (entries c) ∧
    maximumSize c1 = maximumSize c ∧ onRemoval c1 = onRemoval c.
Proof.
  destruct (reached opts h) as (c & rem & Hrun & Hwf & _ & _ & _).
  destruct (GetIfPresent_refines c k now Hwf) as (c1 & HG & Hwf1 & Hv1 & HM & Hf & Hc).
  pose proof (wf_view_nodup c Hwf) as Hnd.
  exists c, (fire (onRemoval (New opts)) rem), c1. split; [done|].
  split; [by rewrite wf_contents|]. split; [|split; [done|split; [|done]]].
  - apply contents_ext; [done..|]. intros k'. rewrite Hv1. by apply lru_get_find.
  - rewrite !wf_Len, Hv1 by done. by rewrite lru_get_length.
Qed.

(** X3.  Insert and look up: right after [Put k v], at any capacity,
    [GetIfPresent k] returns [v]; a [Put] never evicts its own entry. *)
Theorem Put_then_GetIfPresent opts h k v now now' :
  ∃ c evs0 c1 evs1 c2,
    run (New opts) h = Some (c, evs0) ∧
    Put c k v now = Some (c1, evs1) ∧
    GetIfPresent c1 k now' = Some (c2, Some v).
Proof.
  destruct (reached opts h) as (c & rem & Hrun & Hwf & _ & _ & _).
  destruct (Put_refines c k v now Hwf) as (c1 & HP & Hwf1 & Hv1 & _ & _).
  destruct (GetIfPresent_refines c1 k now' Hwf1) as (c2 & HG & _).
  exists c, (fire (onRemoval (New opts)) rem), c1. eexists _, c2.
  split; [done|]. split; [done|]. rewrite HG. do 2 f_equal. rewrite Hv1.
  destruct (lru_put_cases (maximumSize c) k v (view (entries c)))
    as [(v1 & _ & ->)|[(_ & _ & ->)|(_ & _ & l' & x & _ & ->)]]; simpl;
    by rewrite find_cons, decide_True.
Qed.

(** X7.  A hit protects from the next eviction.  Unless the maximum size is 1,
    after [GetIfPresent k] a [Put] of another key leaves [k] as it was: still
    present with its value if it was, still absent if not. *)
Theorem GetIfPresent_protects opts h k now k' v' now' :
  maximumSize (New opts) ≠ 1%Z → k' ≠ k →
  ∃ c evs0 c1 r c2 evs2,
    run (New opts) h = Some (c, evs0) ∧
    GetIfPresent c k now = Some (c1, r) ∧
    Put c1 k' v' now' = Some (c2, evs2) ∧
    contents c2 !! k = contents c !! k.
Proof.
  intros HM1 Hne.
  destruct (reached opts h) as (c & rem & Hrun & Hwf & HM & _ & Hcap).
  destruct (GetIfPresent_refines c k now Hwf) as (c1 & HG & Hwf1 & Hv1 & HMc & Hf & Hc).
  pose proof (wf_view_nodup c Hwf) as Hnd.
  pose proof (wf_view_nodup c1 Hwf1) as Hnd1.
  assert (0 < maximumSize c1 → Len (entries c1) ≤ maximumSize c1)%Z as Hcap1.
  { rewrite HMc, (wf_Len c1 Hwf1), Hv1, lru_get_length, <-(wf_Len c Hwf) by done. done. }
  assert (contents c1 !! k = contents c !! k) as Hk1.
  { rewrite !wf_contents, Hv1 by done. by apply lru_get_find. }
  destruct (Put_cases c1 k' v' now' Hwf1 Hcap1) as (c2 & Hwf2 & _ & _ & Hcases).
  exists c, (fire (onRemoval (New opts)) rem), c1, (find k (view (entries c))), c2.
  destruct Hcases as [(HP & Hcont & _)|(k0 & v0 & Hk0 & Hnone & Hsome & Hlast & HMpos & HLen & HP & Hcont & _)].
  - eexists. do 3 (split; [done|]). by rewrite Hcont, lookup_insert_ne, Hk1.
  - eexists. do 3 (split; [done|]).
    rewrite Hcont, lookup_insert_ne, lookup_delete_ne, Hk1; [done| |done].
    intros ->. rewrite Hv1 in Hlast. unfold lru_get in Hlast.
    destruct (find k (view (entries c))) as [v|] eqn:Hfk.
    + rewrite (wf_Len c1 Hwf1), Hv1 in HLen. unfold lru_get in HLen. rewrite Hfk in HLen.
      rewrite Hv1 in Hnd1. unfold lru_get in Hnd1. rewrite Hfk in Hnd1.
      destruct (without k (view (entries c))) as [|y w] eqn:Hw.
      * simpl in HLen. rewrite HMc, HM in HLen. by rewrite <-HLen in HM1.
      * change (last ((k, v) :: y :: w)) with (last (y :: w)) in Hlast.
        apply last_Some_elem_of in Hlast. simpl in Hnd1.
        apply NoDup_cons in Hnd1 as [Hn _]. apply Hn.
        change (k ∈ (y :: w).*1). apply keys_elem_of. eauto.
    + rewrite wf_contents, Hv1 in Hsome by done. unfold lru_get in Hsome.
      rewrite Hfk in Hsome. congruence.
Qed.

(** X8.  [Invalidate k] calls the listener (if any) on the pair of [k] when [k]
    is present and on nothing otherwise, removes [k] and no other key, and
    lowers the size by one exactly when [k] was present.  A second
    [Invalidate k] calls no listener and leaves the cache as it is. *)
Theorem Invalidate_removes opts h k :
  ∃ c evs0 c1,
    run (New opts) h = Some (c, evs0) ∧
    Invalidate c k
      = Some (c1, fire (onRemoval c)
                    match contents c !! k with Some v => [(k, v)] | None => [] end) ∧
    contents c1 = delete k (contents c) ∧
    Len (entries c1)
      = (Len (entries c) - match contents c !! k with Some _ => 1 | None => 0 end)%Z ∧
    Invalidate c1 k = Some (c1, []).
Proof.
  destruct (reached opts h) as (c & rem & Hrun & Hwf & _ & _ & _).
  destruct (Invalidate_refines c k Hwf) as (c1 & HI & Hwf1 & Hv1 & _ & _).
  pose proof (wf_view_nodup c Hwf) as Hnd.
  exists c, (fire (onRemoval (New opts)) rem), c1. split; [done|].
  assert (contents c1 !! k = None) as Hgone.
  { rewrite wf_contents, Hv1, find_without by done. by rewrite decide_True. }
  split; [|split; [|split]].
  - rewrite HI, wf_contents by done. do 3 f_equal.
    destruct (find k (view (entries c))) as [v|] eqn:Hf.
    + by apply only_find.
    + by apply only_notin, find_None.
  - apply map_eq. intros k'. rewrite lookup_delete, !wf_contents, Hv1 by done.
    rewrite find_without. by repeat case_decide; simplify_eq.
  - rewrite !wf_Len, Hv1, wf_contents by done.
    destruct (find k (view (entries c))) as [v|] eqn:Hf.
    + pose proof (without_length_exact k v _ Hnd Hf). lia.
    + rewrite without_notin by (by apply find_None). lia.
  - unfold Invalidate. replace (cache c1 !! k) with (@None nat); [done|].
    symmetry. apply (wf_cache_None c1 k Hwf1). by apply (wf_contents_None c1 k Hwf1).
Qed.

(** X9.  After [InvalidateAll] the cache behaves as a new one with the same
    options: any further calls leave the same pairs in the same order and
    report the same entries to the listener. *)
Theorem InvalidateAll_as_new opts h ops :
  ∃ c evs0 c1 evs1 c2 rem c2' rem',
    run (New opts) h = Some (c, evs0) ∧
    InvalidateAll c = Some (c1, evs1) ∧
    run c1 ops = Some (c2, fire (onRemoval (New opts)) rem) ∧
    run (New opts) ops = Some (c2', fire (onRemoval (New opts)) rem') ∧
    rem ≡ₚ rem' ∧
    contents c2 = contents c2' ∧
    view (entries c2) = view (entries c2').
Proof.
  destruct (reached opts h) as (c & rem0 & Hrun & Hwf & HM & Hf & _).
  destruct (InvalidateAll_refines c Hwf)
    as (c1 & rem1 & HI & _ & Hwf1 & Hv1 & _ & HM1 & Hf1).
  destruct (run_refines ops c1 Hwf1) as (c2 & rem & Hr2 & Hp2 & Hwf2 & Hv2 & _ & _).
  destruct (run_New opts ops) as (c2' & rem' & Hr2' & Hp2' & Hwf2' & Hv2' & _ & _).
  rewrite Hv1, HM1, HM in Hp2, Hv2. rewrite Hf1, Hf in Hr2.
  exists c, (fire (onRemoval (New opts)) rem0), c1, (fire (onRemoval c) rem1),
         c2, rem, c2', rem'.
  do 4 (split; [done|]). split; [by rewrite Hp2, Hp2'|].
  assert (view (entries c2) = view (entries c2')) as Hview by congruence.
  split; [|done]. apply contents_ext; [done..|]. intros k. by rewrite Hview.
Qed.





(** X1.  No sequence of calls on a new cache panics, and the index and the list
    stay in step: the invariant [wf] holds, the index has as many keys as
    the list has elements, and every key of the index has a value. *)
Theorem calls_keep_index_and_list opts h :
  ∃ c evs,
    run (New opts) h = Some (c, evs) ∧ wf c ∧
    size (cache c) = length (order (entries c)) ∧
    dom (cache c) = dom (contents c).
Proof.
  destruct (reached opts h) as (c & rem & Hrun & Hwf & _ & _ & _).
  exists c, (fire (onRemoval (New opts)) rem). do 2 (split; [done|]).
  split; [by apply wf_size|]. apply set_eq. intros k.
  rewrite !elem_of_dom, <-wf_view_keys by done.
  rewrite <-!not_eq_None_Some, wf_contents_None by done. split; [tauto|].
  apply dec_stable.
Qed.

(** X12.  [removeOldest] on a cache reached by any history: on an empty list it
    returns nil and changes nothing; otherwise it returns the entry at the
    back, the least recently used one, and removes that entry and nothing
    else from the index and the list. *)
Theorem removeOldest_takes_last opts h :
  ∃ c evs,
    run (New opts) h = Some (c, evs) ∧
    ((Len (entries c) = 0%Z ∧ removeOldest c = Some (c, None)) ∨
     (∃ c1 en,
        removeOldest c = Some (c1, Some en) ∧
        last (view (entries c)) = Some (key en, value en) ∧
        contents c !! key en = Some (value en) ∧
        contents c1 = delete (key en) (contents c) ∧
        Len (entries c1) = (Len (entries c) - 1)%Z ∧ wf c1)).
Proof.
  destruct (reached opts h) as (c & rem & Hrun & Hwf & _ & _ & _).
  exists c, (fire (onRemoval (New opts)) rem). split; [done|].
  destruct (order (entries c)) as [|e es] eqn:Ho.
  - left. split; [unfold Len; by rewrite Ho|]. unfold removeOldest, Back. by rewrite Ho.
  - right. destruct (removeOldest_refines c Hwf) as (c1 & en & HR & Hwf1 & Hv1 & Hl & _);
      [by rewrite Ho|].
    pose proof (wf_view_nodup c Hwf) as Hnd.
    exists c1, en. split; [done|]. split; [done|].
    apply last_Some in Hl as [l' Hl].
    split; [apply wf_contents_Some; [done|]; rewrite Hl; apply elem_of_app; right; left|].
    rewrite Hl, removelast_last in Hv1. rewrite Hl in Hnd. split; [|split; [|done]].
    + apply map_eq. intros k'. rewrite lookup_delete, !wf_contents, Hv1, Hl by done.
      rewrite find_snoc by done. unfold pair_of. simpl.
      repeat case_decide; simplify_eq; try done.
      apply find_None. rewrite fmap_app in Hnd.
      apply NoDup_app in Hnd as (_ & Hd & _). intros Hin. apply (Hd _ Hin). left.
    + rewrite !wf_Len, Hv1, Hl, length_app by done. simpl. lia.
Qed.

Lemma touch_front c k e en en' :
  wf c → cache c !! k = Some e → elements (entries c) !! e = Some en →
  let li := mkList (<[e := en']> (elements (entries c))) (fresh (entries c))
                   (order (entries c)) in
  head (order (MoveToFront e li)) = Some e ∧
  elements (MoveToFront e li) !! e = Some en'.
Proof.
  intros Hwf Hk Hen li. destruct (wf_indexed c k e Hwf Hk) as [He _].
  rewrite MoveToFront_spec; [|apply (wf_nodup c Hwf)|done]. simpl.
  split; [done|apply lookup_insert_eq].
Qed.

(** X4.  After [Put k v] at time [now], the element at the front of the list is
    the one the index has for [k], and it holds key [k], value [v] and last
    access [now]. *)
Theorem Put_front_element opts h k v now :
  ∃ c evs0 c1 evs1 e,
    run (New opts) h = Some (c, evs0) ∧
    Put c k v now = Some (c1, evs1) ∧
    head (order (entries c1)) = Some e ∧
    cache c1 !! k = Some e ∧
    elements (entries c1) !! e = Some (mkEntry k v now).
Proof.
  destruct (reached opts h) as (c & rem & Hrun & Hwf & _ & _ & _).
  exists c, (fire (onRemoval (New opts)) rem). unfold Put.
  destruct (cache c !! k) as [e|] eqn:Hk.
  - destruct (wf_indexed c k e Hwf Hk) as (He & en & Hen & Hkey).
    unfold getValue, setValue. rewrite Hen. simpl.
    destruct (touch_front c k e en (mkEntry (key en) v now) Hwf Hk Hen) as [Hh Hel].
    eexists _, _, e. split; [done|]. split; [done|]. simpl.
    split; [done|]. split; [done|]. by rewrite Hel, Hkey.
  - assert (fresh (entries c) ∉ order (entries c)) as Hfr.
    { intros Hin. apply (wf_alloc c Hwf), (wf_fresh c Hwf) in Hin. lia. }
    cbn [PushFront]. set (e := fresh (entries c)).
    set (c' := set_cache _ _).
    destruct (bool_decide (maximumSize c' > 0)%Z
              && bool_decide (Len (entries c') > maximumSize c')%Z) eqn:Hcond.
    + apply andb_prop in Hcond as [HM%bool_decide_eq_true HL%bool_decide_eq_true].
      unfold Len, c' in HM, HL. cbn in HM, HL.
      destruct (exists_last (l:=order (entries c))) as (es & el & Heq).
      { intros Hnil. rewrite Hnil in HL. simpl in HL. lia. }
      assert (el ∈ order (entries c)) as Hel
        by (rewrite Heq; apply elem_of_app; right; left).
      assert (el ≠ e) as Hne by (intros ->; done).
      destruct (wf_linked c el Hwf Hel) as (en & Hen & Hcen).
      assert (key en ≠ k) as Hkne by (intros <-; congruence).
      unfold removeOldest, Back. cbn [entries set_cache set_entries order c'].
      rewrite Heq, app_comm_cons, last_snoc, Remove_spec.
      unfold getValue. cbn [elements order fresh].
      rewrite lookup_insert_ne, Hen by done. cbn [mbind option_bind].
      rewrite <-app_comm_cons. unfold unlink. rewrite filter_cons, decide_True by done.
      subst c'. cbn [onRemoval set_cache set_entries cache entries].
      destruct (onRemoval c); (eexists _, _, e; split; [done|]; split; [done|]; cbn;
        split; [done|];
        split; [by rewrite lookup_delete_ne, lookup_insert_eq|apply lookup_insert_eq]).
    + cbn [mbind option_bind]. subst c'.
      cbn [onRemoval set_cache set_entries cache entries].
      destruct (onRemoval c); (eexists _, _, e; split; [done|]; split; [done|]; cbn;
        split; [done|]; split; apply lookup_insert_eq).
Qed.

(** X6.  A miss of [GetIfPresent] changes nothing.  A hit returns the value of
    the entry the index has for the key, moves that element to the front and
    sets its last access to [now], keeping key and value. *)
Theorem GetIfPresent_front_element opts h k now :
  ∃ c evs0 c1 r,
    run (New opts) h = Some (c, evs0) ∧
    GetIfPresent c k now = Some (c1, r) ∧
    match r with
    | None => cache c !! k = None ∧ c1 = c
    | Some v =>
        ∃ e old,
          cache c !! k = Some e ∧
          elements (entries c) !! e = Some (mkEntry k v old) ∧
          head (order (entries c1)) = Some e ∧
          elements (entries c1) !! e = Some (mkEntry k v now)
    end.
Proof.
  destruct (reached opts h) as (c & rem & Hrun & Hwf & _ & _ & _).
  exists c, (fire (onRemoval (New opts)) rem). unfold GetIfPresent.
  destruct (cache c !! k) as [e|] eqn:Hk.
  - destruct (wf_indexed c k e Hwf Hk) as (He & en & Hen & Hkey).
    unfold getValue, setValue. rewrite Hen. simpl.
    destruct (touch_front c k e en (mkEntry (key en) (value en) now) Hwf Hk Hen)
      as [Hh Hel].
    eexists _, _. split; [done|]. split; [done|]. exists e, (lastAccess en).
    split; [done|]. split; [by destruct en; simplify_eq/=|].
    simpl. split; [done|]. by rewrite Hel, Hkey.
  - by exists c, None.
Qed.
End FromNew.
(** ** These theorems at concrete calls *)

Local Abbreviation New_nat :=
  (New (Key:=nat) (Value:=nat) (Time:=nat) (Event:=nat * nat)).

Example run_hit_then_overflow :
  observe (run (New_nat [WithMaximumSize 2; WithRemovalListener (Some recorder)])
             [CallPut 1 10 0; CallPut 2 20 1; CallPut 1 11 2; CallPut 3 30 3;
              CallGetIfPresent 2 4])
  = Some ([(3, 30); (1, 11)], [(2, 20)]).
Proof. vm_compute. reflexivity. Qed.

Example run_capacity_one :
  observe (run (New_nat [WithMaximumSize 1; WithRemovalListener (Some recorder)])
             [CallPut 1 10 0; CallGetIfPresent 1 1; CallPut 2 20 2])
  = Some ([(2, 20)], [(1, 10)]).
Proof. vm_compute. reflexivity. Qed.

Lemma GetIfPresent_protects_witness :
  (maximumSize (New_nat [WithMaximumSize 2; WithRemovalListener (Some recorder)]) ≠ 1%Z ∧
   3 ≠ 1) ∧
  ∃ c evs0 c1 r c2 evs2,
    run (New_nat [WithMaximumSize 2; WithRemovalListener (Some recorder)])
        [CallPut 1 10 0; CallPut 2 20 1] = Some (c, evs0) ∧
    GetIfPresent c 1 2 = Some (c1, r) ∧
    Put c1 3 30 3 = Some (c2, evs2) ∧
    contents c2 !! 1 = contents c !! 1.
Proof.
  split; [split; [simpl; lia|lia]|].
  apply (GetIfPresent_protects (Key:=nat) (Value:=nat) (Time:=nat) (Event:=nat * nat)
           [WithMaximumSize 2; WithRemovalListener (Some recorder)]
           [CallPut 1 10 0; CallPut 2 20 1] 1 2 3 30 3); [simpl; lia|lia].
Defined.


End CacheMore.
